(** * Tower of Hanoi step counting and its memoisation

    A shallow embedding of the notebook [lru_cache.ipynb]: the move-listing
    function [hanoi], the step counter [hanoi_count], and the same counter
    placed behind a least-recently-used cache. *)

From Equations Require Import Equations.
From Stdlib Require Import ZArith List String Bool Arith Lia DecimalString.
Import ListNotations.

Local Open Scope Z_scope.

(** ** Pole values

    The notebook passes the strings ["A"], ["B"], ["C"], but nothing in the
    functions depends on that: a pole is any value that can be compared (it
    ends up inside a cache key) and formatted (it ends up inside an f-string). *)

Class PoleLike (P : Type) : Type := {
  pole_eq_dec : forall x y : P, {x = y} + {x <> y};
  pole_format : P -> string
}.

#[export] Instance string_PoleLike : PoleLike string := {
  pole_eq_dec := string_dec;
  pole_format := fun s => s
}.

(** [str(n)] for a Python integer. *)
Definition str_int (n : Z) : string := NilZero.string_of_int (Z.to_int n).

Section Hanoi.

Context {P : Type} `{PoleLike P}.

(** [f"Move disk {n_disks} from rod {start_pole} to rod {end_pole}"] *)
Definition move_step (n_disks : Z) (start_pole end_pole : P) : string :=
  ("Move disk " ++ str_int n_disks ++ " from rod " ++ pole_format start_pole
     ++ " to rod " ++ pole_format end_pole)%string.

(** [hanoi]: the list [steps] starts empty and is extended, appended to
    and extended again when [n_disks > 0]. *)
Equations hanoi (n_disks : Z) (start_pole free_pole end_pole : P)
  : list string by wf (Z.to_nat n_disks) lt :=
hanoi n_disks start_pole free_pole end_pole with Z_gt_dec n_disks 0 := {
  | left _ =>
      (([] ++ hanoi (n_disks - 1) start_pole end_pole free_pole)
         ++ [move_step n_disks start_pole end_pole])
        ++ hanoi (n_disks - 1) free_pole start_pole end_pole
  | right _ => [] }.
Next Obligation. lia. Qed.
Next Obligation. lia. Qed.

(** [hanoi_count], first (undecorated) definition: [steps] starts at 0 and
    receives three [+=] when [n_disks > 0]. *)
Equations hanoi_count (n_disks : Z) (start_pole free_pole end_pole : P)
  : Z by wf (Z.to_nat n_disks) lt :=
hanoi_count n_disks start_pole free_pole end_pole with Z_gt_dec n_disks 0 := {
  | left _ =>
      ((0 + hanoi_count (n_disks - 1) start_pole end_pole free_pole) + 1)
        + hanoi_count (n_disks - 1) free_pole start_pole end_pole
  | right _ => 0 }.
Next Obligation. lia. Qed.
Next Obligation. lia. Qed.

End Hanoi.

(** ** The memoising cache

    The decorator [functools.lru_cache] is library code outside the notebook.
    It is modelled here by the explicit cache object that the specification
    describes: an ordered mapping, most recently used entry first. *)

Module LRU.
Section Cache.

Context {K V : Type} (K_eq_dec : forall x y : K, {x = y} + {x <> y}).

(** Modelled from the spec: the [Cache] of section 3, an ordered mapping
    from keys to results bounded by [capacity] ([None] is the unbounded
    configuration, [Some 0] a degenerate bound under which nothing stays
    stored), with the hit and miss counts that [stats()] exposes.
    The head of [entries] is the most recently used entry, its last
    element the least recently used one. *)
Record Cache : Type := mkCache {
  capacity : option nat;
  entries : list (K * V);
  hits : nat;
  misses : nat
}.

(** The state in which a wrapped computation runs: the cache it is wrapped
    with, and a counter of how many times a wrapped function body has been
    entered (the call counter of the specification's tests). *)
Record World : Type := mkWorld {
  cache : Cache;
  calls : nat
}.

(** A computation that may read and update the world. *)
Definition M (A : Type) : Type := World -> A * World.

Definition ret {A : Type} (x : A) : M A := fun w => (x, w).

Definition bind {A B : Type} (m : M A) (f : A -> M B) : M B :=
  fun w => let (x, w') := m w in f x w'.

(** Entering the body of a wrapped function. *)
Definition tick : M unit :=
  fun w => (tt, mkWorld (cache w) (S (calls w))).

(** Modelled from the spec: key lookup in the ordered mapping; two keys are
    equal iff all their positional values are. *)
Fixpoint lookup (k : K) (l : list (K * V)) : option V :=
  match l with
  | [] => None
  | (k', v) :: l' => if K_eq_dec k k' then Some v else lookup k l'
  end.

(** Modelled from the spec: removal of the entry stored under a key. *)
Fixpoint remove_key (k : K) (l : list (K * V)) : list (K * V) :=
  match l with
  | [] => []
  | (k', v) :: l' =>
      if K_eq_dec k k' then remove_key k l' else (k', v) :: remove_key k l'
  end.

(** Modelled from the spec: marking a key as most recently used, which is
    also how a result is stored under a key. *)
Definition touch (k : K) (v : V) (l : list (K * V)) : list (K * V) :=
  (k, v) :: remove_key k l.

(** Modelled from the spec: eviction of the single least recently used
    entry. *)
Definition evict_lru (l : list (K * V)) : list (K * V) := removelast l.

(** Modelled from the spec: [stats().size]. *)
Definition size (c : Cache) : nat := List.length (entries c).

(** Modelled from the spec: the test [size(Cache) > capacity], which only a
    finite capacity can satisfy. *)
Definition over_capacity (cap : option nat) (l : list (K * V)) : bool :=
  match cap with
  | Some n => (n <? List.length l)%nat
  | None => false
  end.

(** Modelled from the spec: [new_cache(capacity)]. *)
Definition new_cache (cap : option nat) : Cache := mkCache cap [] 0 0.

(** Modelled from the spec: [clear()], which empties all entries and the
    recency state. *)
Definition clear (c : Cache) : Cache :=
  mkCache (capacity c) [] (hits c) (misses c).

(** Modelled from the spec: step 1 of [get_or_compute], a hit. *)
Definition on_hit (k : K) (v : V) (c : Cache) : Cache :=
  mkCache (capacity c) (touch k v (entries c)) (S (hits c)) (misses c).

(** Modelled from the spec: steps 2 and 3 of [get_or_compute] once
    [compute_fn] has returned [v]: store as most recently used, then evict
    the least recently used entry if the size exceeds the capacity. *)
Definition on_miss (k : K) (v : V) (c : Cache) : Cache :=
  let stored := touch k v (entries c) in
  mkCache (capacity c)
          (if over_capacity (capacity c) stored then evict_lru stored
           else stored)
          (hits c) (S (misses c)).

(** Modelled from the spec: [get_or_compute(key, compute_fn)]. The deferred
    computation runs in the same world, so it may itself go through the
    cache, as the recursive calls of a decorated function do. Deferred
    computations here always return (the body of [hanoi_count] raises
    nothing), so the pass-through of a failure has no counterpart. *)
Definition get_or_compute (k : K) (compute_fn : M V) : M V :=
  fun w =>
    match lookup k (entries (cache w)) with
    | Some v => (v, mkWorld (on_hit k v (cache w)) (calls w))
    | None =>
        let (v, w') := compute_fn w in
        (v, mkWorld (on_miss k v (cache w')) (calls w'))
    end.

(** The keys currently stored, most recently used first. *)
Definition keys (c : Cache) : list K := map fst (entries c).

(** Requests made of a cache by a caller whose computations are pure:
    [Get k v] is [get_or_compute(k, f)] with [f()] returning [v], and
    [Clear] is [clear()]. *)
Inductive Op : Type :=
| Get (k : K) (v : V)
| Clear.

Definition apply_op (o : Op) (w : World) : World :=
  match o with
  | Get k v => snd (get_or_compute k (ret v) w)
  | Clear => mkWorld (clear (cache w)) (calls w)
  end.

Definition run_ops (ops : list Op) (w : World) : World :=
  fold_left (fun w' o => apply_op o w') ops w.

End Cache.

Arguments Cache : clear implicits.
Arguments World : clear implicits.
Arguments M : clear implicits.

End LRU.

Notation "x <- m ;; f" := (LRU.bind m (fun x => f))
  (at level 61, m at next level, right associativity).
Notation "m ;;; f" := (LRU.bind m (fun _ => f))
  (at level 61, right associativity).

(** ** The decorated [hanoi_count] *)

Section Memo.

Context {P : Type} `{PoleLike P}.

(** The cache key: the tuple of the four positional arguments. *)
Definition Key : Type := Z * P * P * P.

Definition make_key (n_disks : Z) (start_pole free_pole end_pole : P) : Key :=
  (n_disks, start_pole, free_pole, end_pole).

Definition Key_eq_dec (x y : Key) : {x = y} + {x <> y}.
Proof.
  decide equality; try apply pole_eq_dec.
  decide equality; try apply pole_eq_dec.
  decide equality; try apply pole_eq_dec.
  apply Z.eq_dec.
Defined.

(** [hanoi_count], second definition, under [@lru_cache()]: the decorator
    rebinds the name, so every call, the recursive ones included, goes
    through the cache; the body is the same as before. The key is looked
    up first; on a miss the body runs ([tick] records that it was entered)
    and its result is stored when it returns. *)
Equations hanoi_count_memo (n_disks : Z) (start_pole free_pole end_pole : P)
  : LRU.M Key Z Z by wf (Z.to_nat n_disks) lt :=
hanoi_count_memo n_disks start_pole free_pole end_pole :=
  LRU.get_or_compute Key_eq_dec
    (make_key n_disks start_pole free_pole end_pole)
    (LRU.tick ;;;
     match Z_gt_dec n_disks 0 with
     | left _ =>
         s1 <- hanoi_count_memo (n_disks - 1) start_pole end_pole free_pole ;;
         s2 <- hanoi_count_memo (n_disks - 1) free_pole start_pole end_pole ;;
         LRU.ret (((0 + s1) + 1) + s2)
     | right _ => LRU.ret 0
     end).
Next Obligation. lia. Qed.
Next Obligation. lia. Qed.

(** [lru_cache()] is called without arguments, so the cache has the
    decorator's default bound of 128 entries. *)
Definition default_maxsize : nat := 128.

Definition fresh (cap : option nat) : LRU.World Key Z :=
  LRU.mkWorld (LRU.new_cache cap) 0.

(** A decorated call, given its key. *)
Definition call (k : Key) : LRU.M Key Z Z :=
  let '(n_disks, start_pole, free_pole, end_pole) := k in
  hanoi_count_memo n_disks start_pole free_pole end_pole.

(** A sequence of decorated calls made one after the other. *)
Definition call_all (ks : list Key) (w : LRU.World Key Z) : LRU.World Key Z :=
  fold_left (fun w' k => snd (call k w')) ks w.

(** What the undecorated function returns for the arguments in a key. *)
Definition plain (k : Key) : Z :=
  let '(n_disks, start_pole, free_pole, end_pole) := k in
  hanoi_count n_disks start_pole free_pole end_pole.

(** A cache is consistent when every stored result is the one the
    undecorated function returns for the stored key. *)
Definition consistent (w : LRU.World Key Z) : Prop :=
  Forall (fun e => snd e = plain (fst e)) (LRU.entries (LRU.cache w)).

(** The number of disks in a key. *)
Definition disks (k : Key) : Z :=
  let '(n_disks, _, _, _) := k in n_disks.

(** The arrangements of three poles reachable by the two argument swaps of
    the recursive calls: the three of the same parity as [(a, b, c)] when
    [even] is [true], the three others when it is [false]. *)
Definition orbit (even : bool) (a b c : P) : list (P * P * P) :=
  if even then [(a, b, c); (c, a, b); (b, c, a)]
  else [(a, c, b); (b, a, c); (c, b, a)].

(** The keys with [j] disks whose poles are arranged with the parity that
    [j] disks have when [0] disks have parity [g]. *)
Definition level (g : bool) (a b c : P) (j : nat) : list Key :=
  map (fun q : P * P * P => let '(x, y, z) := q in make_key (Z.of_nat j) x y z)
      (orbit (xorb g (Nat.odd j)) a b c).

(** All such keys with fewer than [m] disks. *)
Definition levels_below (g : bool) (a b c : P) (m : nat) : list Key :=
  flat_map (level g a b c) (seq 0 m).

(** The call graph of the decorated function: [reachable k k'] when a call
    with key [k] is, or may lead through its recursive calls to, a call
    with key [k']. *)
Inductive reachable : Key -> Key -> Prop :=
| reach_here (k : Key) : reachable k k
| reach_first (n : Z) (a b c : P) (k' : Key) :
    n > 0 -> reachable (n - 1, a, c, b) k' -> reachable (n, a, b, c) k'
| reach_second (n : Z) (a b c : P) (k' : Key) :
    n > 0 -> reachable (n - 1, b, a, c) k' -> reachable (n, a, b, c) k'.

End Memo.

Arguments Key P : clear implicits.

(** ** The puzzle

    What the steps listed by [hanoi] mean: the notebook states the three
    rules of the puzzle in its first cell. The rods hold stacks of disks,
    numbered by size, the top of a stack first. *)

Section Puzzle.

Context {P : Type} `{PoleLike P}.

(** One step: the disk moved, the rod it leaves and the rod it reaches. *)
Record Move : Type := mkMove {
  disk : Z;
  source : P;
  target : P
}.

(** The text [hanoi] appends for a step. *)
Definition render (m : Move) : string :=
  move_step (disk m) (source m) (target m).

(** [hanoi] before formatting: the same recursion, with the step kept as a
    record instead of an f-string. *)
Equations hanoi_moves (n_disks : Z) (start_pole free_pole end_pole : P)
  : list Move by wf (Z.to_nat n_disks) lt :=
hanoi_moves n_disks start_pole free_pole end_pole with Z_gt_dec n_disks 0 := {
  | left _ =>
      (([] ++ hanoi_moves (n_disks - 1) start_pole end_pole free_pole)
         ++ [mkMove n_disks start_pole end_pole])
        ++ hanoi_moves (n_disks - 1) free_pole start_pole end_pole
  | right _ => [] }.
Next Obligation. lia. Qed.
Next Obligation. lia. Qed.

(** The stack of disks on each rod. *)
Definition Rods : Type := P -> list Z.

Definition put (r : Rods) (p : P) (stack : list Z) : Rods :=
  fun q => if pole_eq_dec q p then stack else r q.

(** Rule 3: no larger disk may be placed on top of a smaller disk. *)
Definition fits (d : Z) (stack : list Z) : bool :=
  match stack with
  | [] => true
  | top :: _ => d <? top
  end.

(** Rules 1 and 2: one disk is moved, the upper disk of one stack, onto
    another stack. [None] when the step breaks a rule. *)
Definition move (m : Move) (r : Rods) : option Rods :=
  if pole_eq_dec (source m) (target m) then None
  else
    match r (source m) with
    | top :: rest =>
        if (top =? disk m) && fits (disk m) (r (target m))
        then Some (put (put r (source m) rest)
                       (target m) (disk m :: r (target m)))
        else None
    | [] => None
    end.

Fixpoint play (ms : list Move) (r : Rods) : option Rods :=
  match ms with
  | [] => Some r
  | m :: ms' =>
      match move m r with
      | Some r' => play ms' r'
      | None => None
      end
  end.

(** The disks [1 .. n] in a neat stack, the smallest at the top. *)
Definition tower (n : Z) : list Z := map Z.of_nat (seq 1 (Z.to_nat n)).

(** The puzzle at its start: the whole tower on one rod. *)
Definition all_on (n : Z) (p : P) : Rods :=
  fun q => if pole_eq_dec q p then tower n else [].

(** How many of the steps move a given disk. *)
Definition moves_of (d : Z) (ms : list Move) : nat :=
  List.length (filter (fun m => disk m =? d) ms).

End Puzzle.

Arguments Move P : clear implicits.
Arguments Rods P : clear implicits.

(** * Properties of the undecorated functions *)

Section HanoiFacts.

Context {P : Type} `{PoleLike P}.

Lemma hanoi_count_pos (n : Z) (a b c : P) :
  n > 0 ->
  hanoi_count n a b c
  = ((0 + hanoi_count (n - 1) a c b) + 1) + hanoi_count (n - 1) b a c.
Proof.
  intros Hn. rewrite hanoi_count_equation_1.
  destruct (Z_gt_dec n 0) as [Hpos | Hneg]; [reflexivity | contradiction].
Qed.

Lemma hanoi_count_nonpos (n : Z) (a b c : P) :
  n <= 0 -> hanoi_count n a b c = 0.
Proof.
  intros Hn. rewrite hanoi_count_equation_1.
  destruct (Z_gt_dec n 0) as [Hpos | Hneg]; [lia | reflexivity].
Qed.

Lemma hanoi_pos (n : Z) (a b c : P) :
  n > 0 ->
  hanoi n a b c
  = (([] ++ hanoi (n - 1) a c b) ++ [move_step n a c]) ++ hanoi (n - 1) b a c.
Proof.
  intros Hn. rewrite hanoi_equation_1.
  destruct (Z_gt_dec n 0) as [Hpos | Hneg]; [reflexivity | contradiction].
Qed.

Lemma hanoi_nonpos (n : Z) (a b c : P) :
  n <= 0 -> hanoi n a b c = [].
Proof.
  intros Hn. rewrite hanoi_equation_1.
  destruct (Z_gt_dec n 0) as [Hpos | Hneg]; [lia | reflexivity].
Qed.

(** Induction on the number of disks, the way both functions recurse:
    nothing to show below 1, and [n - 1] before [n]. *)
Lemma disks_ind (Q : Z -> Prop) :
  (forall n, n <= 0 -> Q n) ->
  (forall n, n > 0 -> Q (n - 1) -> Q n) ->
  forall n, Q n.
Proof.
  intros Hbase Hstep n.
  destruct (Z_le_gt_dec n 0) as [Hle | Hgt]; [now apply Hbase |].
  assert (Hnat : forall k : nat, Q (Z.of_nat k)).
  { induction k as [| k IH].
    - apply Hbase. reflexivity.
    - apply Hstep; [lia |].
      replace (Z.of_nat (S k) - 1) with (Z.of_nat k) by lia. exact IH. }
  specialize (Hnat (Z.to_nat n)). now rewrite Z2Nat.id in Hnat by lia.
Qed.

(** C1: [hanoi_count] satisfies the recurrence of the specification: for
    [n > 0] it is [hanoi_count (n-1) a c b + 1 + hanoi_count (n-1) b a c],
    and it is [0] at [n = 0]. *)
Theorem hanoi_count_recurrence (n : Z) (a b c : P) :
  (n > 0 ->
   hanoi_count n a b c
   = hanoi_count (n - 1) a c b + 1 + hanoi_count (n - 1) b a c)
  /\ hanoi_count 0 a b c = 0.
Proof.
  split.
  - intros Hn. rewrite (hanoi_count_pos n a b c Hn). lia.
  - apply hanoi_count_nonpos. lia.
Qed.

(** C3: for [n >= 0] the undecorated [hanoi_count] returns [2^n - 1], one
    unit for each [steps += 1] it executes. *)
Theorem hanoi_count_closed_form (n : Z) (a b c : P) :
  0 <= n -> hanoi_count n a b c = 2 ^ n - 1.
Proof.
  revert a b c. pattern n. apply disks_ind; clear n.
  - intros n Hle a b c Hge. assert (n = 0) by lia. subst n.
    rewrite hanoi_count_nonpos by lia. reflexivity.
  - intros n Hgt IH a b c _.
    rewrite (hanoi_count_pos n a b c Hgt), !IH by lia.
    replace n with (Z.succ (n - 1)) at 3 by lia.
    rewrite Z.pow_succ_r by lia. lia.
Qed.

(** C9: the list returned by [hanoi] has exactly [hanoi_count] elements,
    for every number of disks. *)
Theorem hanoi_length_count (n : Z) (a b c : P) :
  Z.of_nat (List.length (hanoi n a b c)) = hanoi_count n a b c.
Proof.
  revert a b c. pattern n. apply disks_ind; clear n.
  - intros n Hle a b c.
    rewrite hanoi_nonpos, hanoi_count_nonpos by assumption. reflexivity.
  - intros n Hgt IH a b c.
    rewrite (hanoi_pos n a b c Hgt), (hanoi_count_pos n a b c Hgt).
    rewrite !length_app, !Nat2Z.inj_add, !IH. simpl. lia.
Qed.

(** C10: for [n <= 0], negative values included, the guard [n_disks > 0]
    fails at once: [hanoi] returns the empty list and [hanoi_count]
    returns [0]. *)
Theorem hanoi_nonpositive (n : Z) (a b c : P) :
  n <= 0 -> hanoi n a b c = [] /\ hanoi_count n a b c = 0.
Proof.
  intros Hn. split; [now apply hanoi_nonpos | now apply hanoi_count_nonpos].
Qed.

End HanoiFacts.

(** C4: [hanoi_count(3, "A", "B", "C")] is [7]. *)
Theorem hanoi_count_3_ABC :
  hanoi_count 3 "A"%string "B"%string "C"%string = 7.
Proof. vm_compute. reflexivity. Qed.

Lemma hanoi_count_recurrence_witness :
  hanoi_count 3 "A"%string "B"%string "C"%string
  = hanoi_count (3 - 1) "A"%string "C"%string "B"%string + 1
    + hanoi_count (3 - 1) "B"%string "A"%string "C"%string.
Proof.
  apply (proj1 (hanoi_count_recurrence 3 "A"%string "B"%string "C"%string)).
  lia.
Defined.

Lemma hanoi_count_closed_form_witness :
  hanoi_count 5 "A"%string "B"%string "C"%string = 2 ^ 5 - 1.
Proof. apply hanoi_count_closed_form. lia. Defined.

Lemma hanoi_nonpositive_witness :
  hanoi (-3) "A"%string "B"%string "C"%string = []
  /\ hanoi_count (-3) "A"%string "B"%string "C"%string = 0.
Proof. apply hanoi_nonpositive. lia. Defined.

(** * Properties of the cache *)

Section LRUFacts.

Context {K V : Type} (K_eq_dec : forall x y : K, {x = y} + {x <> y}).

Local Abbreviation lookup := (LRU.lookup K_eq_dec).
Local Abbreviation remove_key := (LRU.remove_key K_eq_dec).
Local Abbreviation touch := (LRU.touch K_eq_dec).
Local Abbreviation get_or_compute := (LRU.get_or_compute K_eq_dec).
Local Abbreviation on_hit := (LRU.on_hit K_eq_dec).
Local Abbreviation on_miss := (LRU.on_miss K_eq_dec).
Local Abbreviation apply_op := (LRU.apply_op K_eq_dec).
Local Abbreviation run_ops := (LRU.run_ops K_eq_dec).

Implicit Types (k : K) (v : V) (l : list (K * V)) (c : LRU.Cache K V).

Lemma lookup_none_iff k l : lookup k l = None <-> ~ In k (map fst l).
Proof.
  induction l as [| [k' v'] l IH]; simpl.
  - tauto.
  - destruct (K_eq_dec k k') as [-> | Hne].
    + split; [discriminate | intros Hn; exfalso; apply Hn; now left].
    + rewrite IH. split; [intros Hn [Hk | Hk]; congruence | tauto].
Qed.

Lemma lookup_some_in k v l : lookup k l = Some v -> In (k, v) l.
Proof.
  induction l as [| [k' v'] l IH]; simpl; [discriminate |].
  destruct (K_eq_dec k k') as [-> | Hne].
  - intros [= ->]. now left.
  - intros Hl. right. now apply IH.
Qed.

Lemma in_keys_lookup k l : In k (map fst l) -> exists v, lookup k l = Some v.
Proof.
  intros Hin. destruct (lookup k l) as [v |] eqn:E; [now exists v |].
  apply lookup_none_iff in E. contradiction.
Qed.

Lemma remove_key_absent k l : lookup k l = None -> remove_key k l = l.
Proof.
  induction l as [| [k' v'] l IH]; simpl; [reflexivity |].
  destruct (K_eq_dec k k'); [discriminate |].
  intros Hl. now rewrite IH.
Qed.

Lemma remove_key_length_le k l :
  (List.length (remove_key k l) <= List.length l)%nat.
Proof.
  induction l as [| [k' v'] l IH]; simpl; [lia |].
  destruct (K_eq_dec k k'); simpl; lia.
Qed.

Lemma remove_key_length_lt k v l :
  lookup k l = Some v -> (List.length (remove_key k l) < List.length l)%nat.
Proof.
  induction l as [| [k' v'] l IH]; simpl; [discriminate |].
  destruct (K_eq_dec k k').
  - intros _. pose proof (remove_key_length_le k l). lia.
  - intros Hl. simpl. apply IH in Hl. lia.
Qed.

Lemma lookup_remove_key_ne k k' l :
  k' <> k -> lookup k' (remove_key k l) = lookup k' l.
Proof.
  intros Hne. induction l as [| [k0 v0] l IH]; simpl; [reflexivity |].
  destruct (K_eq_dec k k0) as [-> | Hk].
  - destruct (K_eq_dec k' k0); [contradiction | exact IH].
  - simpl. destruct (K_eq_dec k' k0); [reflexivity | exact IH].
Qed.

Lemma lookup_head k v l : lookup k ((k, v) :: l) = Some v.
Proof.
  simpl. destruct (K_eq_dec k k); [reflexivity | contradiction].
Qed.

Lemma lookup_touch_eq k v l : lookup k (touch k v l) = Some v.
Proof. unfold LRU.touch. apply lookup_head. Qed.

Lemma lookup_touch_ne k k' v l :
  k' <> k -> lookup k' (touch k v l) = lookup k' l.
Proof.
  intros Hne. unfold LRU.touch. simpl.
  destruct (K_eq_dec k' k); [contradiction |].
  now apply lookup_remove_key_ne.
Qed.

Lemma in_remove_key e k l : In e (remove_key k l) -> In e l.
Proof.
  induction l as [| [k' v'] l IH]; simpl; [tauto |].
  destruct (K_eq_dec k k'); simpl; intuition.
Qed.

Lemma in_keys_remove_key k k' l :
  In k' (map fst (remove_key k l)) <-> In k' (map fst l) /\ k' <> k.
Proof.
  induction l as [| [k0 v0] l IH]; simpl; [tauto |].
  destruct (K_eq_dec k k0) as [-> | Hk]; simpl; rewrite IH.
  - intuition congruence.
  - intuition congruence.
Qed.

Lemma NoDup_keys_remove_key k l :
  NoDup (map fst l) -> NoDup (map fst (remove_key k l)).
Proof.
  induction l as [| [k' v'] l IH]; simpl; [constructor |].
  intros Hnd. inversion Hnd as [| ? ? Hnot Hrest]; subst.
  destruct (K_eq_dec k k'); [now apply IH |].
  simpl. constructor; [| now apply IH].
  rewrite in_keys_remove_key. tauto.
Qed.

Lemma NoDup_keys_touch k v l :
  NoDup (map fst l) -> NoDup (map fst (touch k v l)).
Proof.
  intros Hnd. unfold LRU.touch. simpl. constructor.
  - rewrite in_keys_remove_key. tauto.
  - now apply NoDup_keys_remove_key.
Qed.

Lemma remove_key_present_length k l :
  NoDup (map fst l) -> In k (map fst l) ->
  S (List.length (remove_key k l)) = List.length l.
Proof.
  induction l as [| [k' v'] l IH]; simpl; [tauto |].
  intros Hnd Hin. inversion Hnd as [| ? ? Hnot Hrest]; subst.
  destruct (K_eq_dec k k') as [-> | Hne].
  - rewrite remove_key_absent; [reflexivity |].
    now apply lookup_none_iff.
  - simpl. f_equal. apply IH; [assumption |].
    destruct Hin as [Heq | Hin]; [congruence | assumption].
Qed.

Lemma in_removelast {A : Type} (x : A) (xs : list A) :
  In x (removelast xs) -> In x xs.
Proof.
  induction xs as [| y [| z xs] IH]; simpl; [tauto | tauto |].
  intros [-> | Hin]; [now left | right; now apply IH].
Qed.

Lemma removelast_length {A : Type} (xs : list A) :
  List.length (removelast xs) = Nat.pred (List.length xs).
Proof.
  induction xs as [| y [| z xs] IH]; simpl in *; [reflexivity | reflexivity |].
  rewrite IH. reflexivity.
Qed.

(** The size after a hit or a miss, under a finite capacity. *)
Lemma on_hit_size k v c cap :
  LRU.capacity c = Some cap -> lookup k (LRU.entries c) = Some v ->
  (LRU.size c <= cap)%nat -> (LRU.size (on_hit k v c) <= cap)%nat.
Proof.
  intros _ Hl Hsz. unfold LRU.size, LRU.on_hit, LRU.touch in *. simpl.
  pose proof (remove_key_length_lt _ _ _ Hl). lia.
Qed.

Lemma on_miss_size k v c cap :
  LRU.capacity c = Some cap ->
  (LRU.size c <= cap)%nat -> (LRU.size (on_miss k v c) <= cap)%nat.
Proof.
  intros Hcap Hsz. unfold LRU.size, LRU.on_miss, LRU.over_capacity in *.
  cbn [LRU.entries]. rewrite Hcap.
  pose proof (remove_key_length_le k (LRU.entries c)) as Hrm.
  destruct (Nat.ltb_spec cap (List.length (touch k v (LRU.entries c))))
    as [Hover | Hfit].
  - unfold LRU.evict_lru. rewrite removelast_length.
    unfold LRU.touch in *. simpl in *. lia.
  - exact Hfit.
Qed.

(** [get_or_compute] keeps the cache within its capacity whenever the
    deferred computation does. *)
Lemma get_or_compute_size k (f : LRU.M K V V) cap (w : LRU.World K V) :
  (forall w0, LRU.capacity (LRU.cache w0) = Some cap ->
              (LRU.size (LRU.cache w0) <= cap)%nat ->
              LRU.capacity (LRU.cache (snd (f w0))) = Some cap
              /\ (LRU.size (LRU.cache (snd (f w0))) <= cap)%nat) ->
  LRU.capacity (LRU.cache w) = Some cap ->
  (LRU.size (LRU.cache w) <= cap)%nat ->
  LRU.capacity (LRU.cache (snd (get_or_compute k f w))) = Some cap
  /\ (LRU.size (LRU.cache (snd (get_or_compute k f w))) <= cap)%nat.
Proof.
  intros Hf Hcap Hsz. unfold LRU.get_or_compute.
  destruct (lookup k (LRU.entries (LRU.cache w))) as [v |] eqn:Hl.
  - simpl. split; [exact Hcap | now apply on_hit_size].
  - specialize (Hf w Hcap Hsz). destruct (f w) as [v w']. simpl in *.
    destruct Hf as [Hcap' Hsz']. split; [exact Hcap' |].
    now apply on_miss_size.
Qed.

Lemma apply_op_size (o : LRU.Op) cap (w : LRU.World K V) :
  LRU.capacity (LRU.cache w) = Some cap ->
  (LRU.size (LRU.cache w) <= cap)%nat ->
  LRU.capacity (LRU.cache (apply_op o w)) = Some cap
  /\ (LRU.size (LRU.cache (apply_op o w)) <= cap)%nat.
Proof.
  intros Hcap Hsz. destruct o as [k v |]; simpl.
  - apply get_or_compute_size; auto.
  - split; [exact Hcap | unfold LRU.size; simpl; lia].
Qed.

Lemma run_ops_size (ops : list LRU.Op) cap (w : LRU.World K V) :
  LRU.capacity (LRU.cache w) = Some cap ->
  (LRU.size (LRU.cache w) <= cap)%nat ->
  LRU.capacity (LRU.cache (run_ops ops w)) = Some cap
  /\ (LRU.size (LRU.cache (run_ops ops w)) <= cap)%nat.
Proof.
  revert w. induction ops as [| o ops IH]; intros w Hcap Hsz; simpl.
  - now split.
  - destruct (apply_op_size o cap w Hcap Hsz) as [Hcap' Hsz'].
    now apply IH.
Qed.

Lemma on_miss_entries_fit k v c cap :
  LRU.capacity c = Some cap -> lookup k (LRU.entries c) = None ->
  (LRU.size c < cap)%nat ->
  LRU.entries (on_miss k v c) = (k, v) :: LRU.entries c.
Proof.
  intros Hcap Hl Hlt. unfold LRU.on_miss, LRU.over_capacity, LRU.touch.
  cbn [LRU.entries]. rewrite Hcap, (remove_key_absent _ _ Hl).
  unfold LRU.size in Hlt.
  destruct (Nat.ltb_spec cap (List.length ((k, v) :: LRU.entries c)))
    as [Hover | Hfit]; [simpl in Hover; lia | reflexivity].
Qed.

Lemma on_miss_entries_full k v c cap :
  LRU.capacity c = Some cap -> lookup k (LRU.entries c) = None ->
  LRU.size c = cap -> (0 < cap)%nat ->
  exists rest lru,
    LRU.entries c = rest ++ [lru]
    /\ LRU.entries (on_miss k v c) = (k, v) :: rest
    /\ LRU.size (on_miss k v c) = cap.
Proof.
  intros Hcap Hl Hsz Hpos. unfold LRU.size in *.
  destruct (exists_last (l := LRU.entries c)) as (rest & lru & Hsplit).
  { intros Hnil. rewrite Hnil in Hsz. simpl in Hsz. lia. }
  exists rest, lru. split; [exact Hsplit |].
  unfold LRU.on_miss, LRU.over_capacity, LRU.touch.
  cbn [LRU.entries]. rewrite Hcap, (remove_key_absent _ _ Hl).
  destruct (Nat.ltb_spec cap (List.length ((k, v) :: LRU.entries c)))
    as [Hover | Hfit]; [| simpl in Hfit; lia].
  unfold LRU.evict_lru. rewrite Hsplit, app_comm_cons, removelast_last.
  split; [reflexivity |].
  rewrite Hsplit, length_app in Hsz. simpl in *. lia.
Qed.

Lemma on_miss_head k v c :
  LRU.capacity c <> Some 0%nat ->
  exists rest, LRU.entries (on_miss k v c) = (k, v) :: rest.
Proof.
  intros Hcap. unfold LRU.on_miss, LRU.over_capacity, LRU.touch.
  cbn [LRU.entries].
  destruct (LRU.capacity c) as [cap |]; [| eauto].
  destruct (Nat.ltb_spec cap (List.length ((k, v) :: remove_key k (LRU.entries c))))
    as [Hover | Hfit]; [| eauto].
  unfold LRU.evict_lru.
  destruct (remove_key k (LRU.entries c)) as [| e rest] eqn:E.
  - simpl in Hover. assert (cap = 0%nat) by lia. congruence.
  - exists (removelast (e :: rest)). reflexivity.
Qed.

Lemma in_keys_touch k k' v l :
  In k' (map fst (touch k v l)) <-> k' = k \/ In k' (map fst l).
Proof.
  unfold LRU.touch. simpl. rewrite in_keys_remove_key.
  destruct (K_eq_dec k' k) as [-> | Hne]; intuition congruence.
Qed.

Lemma in_keys_on_hit k k' v c :
  In k' (LRU.keys (on_hit k v c)) <-> k' = k \/ In k' (LRU.keys c).
Proof.
  unfold LRU.keys, LRU.on_hit. cbn [LRU.entries].
  apply (in_keys_touch k k' v (LRU.entries c)).
Qed.

Lemma in_keys_on_miss k k' v c :
  In k' (LRU.keys (on_miss k v c)) -> k' = k \/ In k' (LRU.keys c).
Proof.
  unfold LRU.keys, LRU.on_miss. cbn [LRU.entries]. intros Hin.
  apply (in_keys_touch k k' v (LRU.entries c)).
  destruct (LRU.over_capacity _ _); [| exact Hin].
  unfold LRU.evict_lru in Hin. apply in_map_iff in Hin.
  destruct Hin as (e & <- & He). apply in_map. now apply in_removelast.
Qed.

Lemma in_keys_on_miss_unbounded k k' v c :
  LRU.capacity c = None ->
  In k' (LRU.keys (on_miss k v c)) <-> k' = k \/ In k' (LRU.keys c).
Proof.
  intros Hcap. unfold LRU.keys, LRU.on_miss. cbn [LRU.entries].
  rewrite Hcap. simpl LRU.over_capacity. cbv iota.
  apply (in_keys_touch k k' v (LRU.entries c)).
Qed.

Lemma on_miss_entries_unbounded k v c :
  LRU.capacity c = None -> lookup k (LRU.entries c) = None ->
  LRU.entries (on_miss k v c) = (k, v) :: LRU.entries c.
Proof.
  intros Hcap Hl. unfold LRU.on_miss, LRU.touch. cbn [LRU.entries].
  rewrite Hcap, (remove_key_absent _ _ Hl). reflexivity.
Qed.

(** C6: under a finite capacity, the size of the cache is at most the
    capacity after every operation of any sequence; storing a new key
    makes the size exceed the capacity by at most one, and when it does
    exactly the least recently used entry is evicted. *)
Theorem capacity_invariant (cap : nat) (w : LRU.World K V)
    (ops : list LRU.Op) :
  LRU.capacity (LRU.cache w) = Some cap ->
  (LRU.size (LRU.cache w) <= cap)%nat ->
  (forall i, (LRU.size (LRU.cache (run_ops (firstn i ops) w)) <= cap)%nat)
  /\ (forall k v,
        lookup k (LRU.entries (LRU.cache w)) = None ->
        List.length (touch k v (LRU.entries (LRU.cache w)))
        = S (LRU.size (LRU.cache w))
        /\ ((LRU.size (LRU.cache w) < cap)%nat ->
            LRU.entries (on_miss k v (LRU.cache w))
            = (k, v) :: LRU.entries (LRU.cache w))
        /\ (LRU.size (LRU.cache w) = cap -> (0 < cap)%nat ->
            exists rest lru,
              LRU.entries (LRU.cache w) = rest ++ [lru]
              /\ LRU.entries (on_miss k v (LRU.cache w)) = (k, v) :: rest
              /\ LRU.size (on_miss k v (LRU.cache w)) = cap)).
Proof.
  intros Hcap Hsz. split.
  - intros i. now apply run_ops_size.
  - intros k v Hl. split; [| split].
    + unfold LRU.touch, LRU.size. rewrite (remove_key_absent _ _ Hl).
      reflexivity.
    + intros Hlt. now apply on_miss_entries_fit with (cap := cap).
    + intros Hfull Hpos. now apply on_miss_entries_full.
Qed.

(** C8: with capacity 2, after storing [k1] then [k2], a hit on [k1] and
    the storing of a new key [k3], the entry evicted is [k2]; [k1] and
    [k3] are present. *)
Theorem lru_eviction_order (k1 k2 k3 : K) (v1 v2 v1' v3 : V) :
  k1 <> k2 -> k1 <> k3 -> k2 <> k3 ->
  let w := run_ops [LRU.Get k1 v1; LRU.Get k2 v2; LRU.Get k1 v1'; LRU.Get k3 v3]
                   (LRU.mkWorld (LRU.new_cache (Some 2%nat)) 0) in
  lookup k2 (LRU.entries (LRU.cache w)) = None
  /\ lookup k1 (LRU.entries (LRU.cache w)) = Some v1
  /\ lookup k3 (LRU.entries (LRU.cache w)) = Some v3
  /\ LRU.entries (LRU.cache w) = [(k3, v3); (k1, v1)]
  /\ LRU.hits (LRU.cache w) = 1%nat
  /\ LRU.misses (LRU.cache w) = 3%nat.
Proof.
  intros H12 H13 H23.
  assert (Hrun :
    run_ops [LRU.Get k1 v1; LRU.Get k2 v2; LRU.Get k1 v1'; LRU.Get k3 v3]
            (LRU.mkWorld (LRU.new_cache (Some 2%nat)) 0)
    = LRU.mkWorld (LRU.mkCache (Some 2%nat) [(k3, v3); (k1, v1)] 1 3) 0).
  { unfold LRU.run_ops, LRU.apply_op, LRU.get_or_compute, LRU.ret,
      LRU.on_hit, LRU.on_miss, LRU.touch, LRU.new_cache. simpl.
    repeat (match goal with
            | |- context [K_eq_dec ?x ?y] =>
                destruct (K_eq_dec x y); try congruence
            end; simpl).
    reflexivity. }
  cbv zeta. rewrite Hrun. simpl.
  destruct (K_eq_dec k2 k3), (K_eq_dec k2 k1), (K_eq_dec k1 k3),
    (K_eq_dec k1 k1), (K_eq_dec k3 k3); try congruence.
  repeat split; reflexivity.
Qed.

End LRUFacts.

Lemma capacity_invariant_witness :
  (LRU.size
     (LRU.cache
        (LRU.run_ops Nat.eq_dec
           (firstn 4 [LRU.Get 1 10; LRU.Get 2 20; LRU.Get 1 11; LRU.Get 3 30;
                      LRU.Clear; LRU.Get 4 40]%nat)
           (LRU.mkWorld (LRU.new_cache (Some 2%nat)) 0%nat))) <= 2)%nat.
Proof.
  apply (proj1 (capacity_invariant Nat.eq_dec 2
                  (LRU.mkWorld (LRU.new_cache (Some 2%nat)) 0%nat)
                  [LRU.Get 1 10; LRU.Get 2 20; LRU.Get 1 11; LRU.Get 3 30;
                   LRU.Clear; LRU.Get 4 40]%nat
                  eq_refl (Nat.le_0_l 2)) 4%nat).
Defined.

Lemma lru_eviction_order_witness :
  LRU.entries
    (LRU.cache
       (LRU.run_ops Nat.eq_dec
          [LRU.Get 1 10; LRU.Get 2 20; LRU.Get 1 11; LRU.Get 3 30]%nat
          (LRU.mkWorld (LRU.new_cache (Some 2%nat)) 0%nat)))
  = [(3, 30); (1, 10)]%nat.
Proof.
  apply (lru_eviction_order Nat.eq_dec 1 2 3 10 20 11 30)%nat; discriminate.
Defined.

(** * Properties of the decorated function *)

Section MemoFacts.

Context {P : Type} `{PoleLike P}.

Local Abbreviation lookup := (LRU.lookup (K := Key P) (V := Z) Key_eq_dec).
Local Abbreviation on_hit := (LRU.on_hit (K := Key P) (V := Z) Key_eq_dec).
Local Abbreviation on_miss := (LRU.on_miss (K := Key P) (V := Z) Key_eq_dec).
Local Abbreviation touch := (LRU.touch (K := Key P) (V := Z) Key_eq_dec).

Implicit Types (n : Z) (a b c : P) (w : LRU.World (Key P) Z) (k : Key P).

(** One decorated call, with the monad unfolded. *)
Lemma memo_unfold n a b c w :
  hanoi_count_memo n a b c w
  = match lookup (make_key n a b c) (LRU.entries (LRU.cache w)) with
    | Some v => (v, LRU.mkWorld (on_hit (make_key n a b c) v (LRU.cache w))
                                (LRU.calls w))
    | None =>
        if Z_gt_dec n 0 then
          let (s1, w1) := hanoi_count_memo (n - 1) a c b (snd (LRU.tick w)) in
          let (s2, w2) := hanoi_count_memo (n - 1) b a c w1 in
          (0 + s1 + 1 + s2,
           LRU.mkWorld
             (on_miss (make_key n a b c) (0 + s1 + 1 + s2) (LRU.cache w2))
             (LRU.calls w2))
        else
          (0, LRU.mkWorld (on_miss (make_key n a b c) 0 (LRU.cache w))
                          (S (LRU.calls w)))
    end.
Proof.
  rewrite hanoi_count_memo_equation_1.
  unfold LRU.get_or_compute, LRU.bind, LRU.tick, LRU.ret.
  destruct (lookup (make_key n a b c) (LRU.entries (LRU.cache w)));
    [reflexivity |].
  destruct (Z_gt_dec n 0); [| reflexivity]. simpl.
  destruct (hanoi_count_memo (n - 1) a c b _) as [s1 w1].
  destruct (hanoi_count_memo (n - 1) b a c w1) as [s2 w2].
  reflexivity.
Qed.

(** Induction over the run of a decorated call: a hit, a miss without
    disks to move, and a miss whose body makes the two recursive calls. *)
Lemma memo_ind (Q : Z -> P -> P -> P -> LRU.World (Key P) Z -> Z -> LRU.World (Key P) Z -> Prop) :
  (forall n a b c w v,
      lookup (make_key n a b c) (LRU.entries (LRU.cache w)) = Some v ->
      Q n a b c w v
        (LRU.mkWorld (on_hit (make_key n a b c) v (LRU.cache w)) (LRU.calls w))) ->
  (forall n a b c w,
      n <= 0 ->
      lookup (make_key n a b c) (LRU.entries (LRU.cache w)) = None ->
      Q n a b c w 0
        (LRU.mkWorld (on_miss (make_key n a b c) 0 (LRU.cache w))
                     (S (LRU.calls w)))) ->
  (forall n a b c w s1 w1 s2 w2,
      n > 0 ->
      lookup (make_key n a b c) (LRU.entries (LRU.cache w)) = None ->
      hanoi_count_memo (n - 1) a c b (snd (LRU.tick w)) = (s1, w1) ->
      Q (n - 1) a c b (snd (LRU.tick w)) s1 w1 ->
      hanoi_count_memo (n - 1) b a c w1 = (s2, w2) ->
      Q (n - 1) b a c w1 s2 w2 ->
      Q n a b c w (0 + s1 + 1 + s2)
        (LRU.mkWorld
           (on_miss (make_key n a b c) (0 + s1 + 1 + s2) (LRU.cache w2))
           (LRU.calls w2))) ->
  forall n a b c w,
    Q n a b c w (fst (hanoi_count_memo n a b c w))
      (snd (hanoi_count_memo n a b c w)).
Proof.
  intros Hhit Hbase Hstep n. pattern n. apply disks_ind; clear n.
  - intros n Hle a b c w. rewrite memo_unfold.
    destruct (lookup _ _) as [v |] eqn:Hl; [now apply Hhit |].
    destruct (Z_gt_dec n 0); [lia |]. now apply Hbase.
  - intros n Hgt IH a b c w. rewrite memo_unfold.
    destruct (lookup _ _) as [v |] eqn:Hl; [now apply Hhit |].
    destruct (Z_gt_dec n 0); [| lia].
    pose proof (IH a c b (snd (LRU.tick w))) as IH1.
    destruct (hanoi_count_memo (n - 1) a c b _) as [s1 w1] eqn:E1.
    pose proof (IH b a c w1) as IH2.
    destruct (hanoi_count_memo (n - 1) b a c w1) as [s2 w2] eqn:E2.
    simpl in *. now apply (Hstep n a b c w s1 w1 s2 w2).
Qed.

Lemma consistent_touch k v w (l : list (Key P * Z)) :
  v = plain k ->
  Forall (fun e => snd e = plain (fst e)) l ->
  Forall (fun e => snd e = plain (fst e)) (touch k v l).
Proof.
  intros Hv Hl. unfold LRU.touch. constructor; [exact Hv |].
  rewrite Forall_forall in *. intros e He. apply Hl.
  now apply in_remove_key in He.
Qed.

Lemma consistent_on_hit k v w :
  lookup k (LRU.entries (LRU.cache w)) = Some v -> consistent w ->
  v = plain k
  /\ consistent (LRU.mkWorld (on_hit k v (LRU.cache w)) (LRU.calls w)).
Proof.
  intros Hl Hc. unfold consistent in *.
  assert (Hv : v = plain k).
  { rewrite Forall_forall in Hc.
    apply (Hc (k, v)). now apply lookup_some_in in Hl. }
  split; [exact Hv |]. simpl. now apply (consistent_touch k v w).
Qed.

Lemma consistent_on_miss k v w (m : nat) :
  v = plain k -> consistent w ->
  consistent (LRU.mkWorld (on_miss k v (LRU.cache w)) m).
Proof.
  intros Hv Hc. unfold consistent in *. simpl.
  pose proof (consistent_touch k v w _ Hv Hc) as Ht.
  destruct (LRU.over_capacity _ _); [| exact Ht].
  unfold LRU.evict_lru. rewrite Forall_forall in *.
  intros e He. apply Ht. now apply in_removelast.
Qed.

(** From a consistent cache, a decorated call returns what the undecorated
    function returns, and leaves the cache consistent. *)
Lemma memo_sound n a b c w :
  consistent w ->
  fst (hanoi_count_memo n a b c w) = hanoi_count n a b c
  /\ consistent (snd (hanoi_count_memo n a b c w)).
Proof.
  revert n a b c w.
  apply (memo_ind (fun n a b c w r w' =>
    consistent w -> r = hanoi_count n a b c /\ consistent w')).
  - intros n a b c w v Hl Hc.
    now apply (consistent_on_hit (make_key n a b c)).
  - intros n a b c w Hle Hl Hc.
    assert (Hv : 0 = plain (make_key n a b c)).
    { simpl. now rewrite hanoi_count_nonpos. }
    split; [exact Hv |]. now apply consistent_on_miss.
  - intros n a b c w s1 w1 s2 w2 Hgt Hl E1 IH1 E2 IH2 Hc.
    destruct (IH1 Hc) as [-> Hc1]. destruct (IH2 Hc1) as [-> Hc2].
    assert (Hv : 0 + hanoi_count (n - 1) a c b + 1 + hanoi_count (n - 1) b a c
                 = plain (make_key n a b c)).
    { simpl. now rewrite (hanoi_count_pos n a b c Hgt). }
    split; [exact Hv |]. now apply consistent_on_miss.
Qed.

Lemma reachable_disks (k k' : Key P) :
  reachable k k' -> disks k' <= disks k.
Proof.
  induction 1 as [k | n a b c k' Hn _ IH | n a b c k' Hn _ IH];
    simpl in *; lia.
Qed.

(** A decorated call never changes the capacity, never lowers the call
    counter, and (unless the capacity is zero) leaves its own entry at the
    most recently used position. *)
Lemma memo_frame n a b c w :
  LRU.capacity (LRU.cache (snd (hanoi_count_memo n a b c w)))
  = LRU.capacity (LRU.cache w)
  /\ (LRU.calls w <= LRU.calls (snd (hanoi_count_memo n a b c w)))%nat
  /\ (LRU.capacity (LRU.cache w) <> Some 0%nat ->
      exists rest,
        LRU.entries (LRU.cache (snd (hanoi_count_memo n a b c w)))
        = (make_key n a b c, fst (hanoi_count_memo n a b c w)) :: rest).
Proof.
  revert n a b c w.
  apply (memo_ind (fun n a b c w r w' =>
    LRU.capacity (LRU.cache w') = LRU.capacity (LRU.cache w)
    /\ (LRU.calls w <= LRU.calls w')%nat
    /\ (LRU.capacity (LRU.cache w) <> Some 0%nat ->
        exists rest,
          LRU.entries (LRU.cache w') = (make_key n a b c, r) :: rest))).
  - intros n a b c w v Hl. simpl. repeat split; [lia |].
    intros _. unfold LRU.touch. eauto.
  - intros n a b c w Hle Hl. cbn [LRU.cache LRU.calls].
    repeat split; [lia |]. intros Hcap. now apply on_miss_head.
  - intros n a b c w s1 w1 s2 w2 Hgt Hl E1 (Hc1 & Hn1 & _) E2 (Hc2 & Hn2 & _).
    cbn [LRU.cache LRU.calls] in *.
    assert (Hc : LRU.capacity (LRU.cache w2) = LRU.capacity (LRU.cache w)).
    { rewrite Hc2, Hc1. reflexivity. }
    repeat split.
    + exact Hc.
    + simpl in Hn1. lia.
    + intros Hcap. apply on_miss_head. now rewrite Hc.
Qed.

(** Every key in the cache after a decorated call was there before, or
    belongs to the call graph of the call. *)
Lemma memo_keys_reachable n a b c w k :
  In k (LRU.keys (LRU.cache (snd (hanoi_count_memo n a b c w)))) ->
  In k (LRU.keys (LRU.cache w)) \/ reachable (n, a, b, c) k.
Proof.
  revert n a b c w k.
  apply (memo_ind (fun n a b c w r w' =>
    forall k, In k (LRU.keys (LRU.cache w')) ->
              In k (LRU.keys (LRU.cache w)) \/ reachable (n, a, b, c) k)).
  - intros n a b c w v Hl k Hin. cbn [LRU.cache] in Hin.
    apply in_keys_on_hit in Hin. destruct Hin as [-> | Hin]; [right | now left].
    apply reach_here.
  - intros n a b c w Hle Hl k Hin. cbn [LRU.cache] in Hin.
    apply in_keys_on_miss in Hin. destruct Hin as [-> | Hin]; [right | now left].
    apply reach_here.
  - intros n a b c w s1 w1 s2 w2 Hgt Hl E1 IH1 E2 IH2 k Hin.
    cbn [LRU.cache] in Hin. apply in_keys_on_miss in Hin.
    destruct Hin as [-> | Hin]; [right; apply reach_here |].
    destruct (IH2 k Hin) as [Hin1 | Hr]; [| right; now apply reach_second].
    destruct (IH1 k Hin1) as [Hin0 | Hr]; [now left |].
    right. now apply reach_first.
Qed.

(** With an unbounded cache nothing is ever evicted: keys stay distinct,
    stored keys stay stored, and the call counter advances by exactly the
    number of keys added. *)
Lemma memo_unbounded n a b c w :
  LRU.capacity (LRU.cache w) = None ->
  NoDup (LRU.keys (LRU.cache w)) ->
  NoDup (LRU.keys (LRU.cache (snd (hanoi_count_memo n a b c w))))
  /\ incl (LRU.keys (LRU.cache w))
          (LRU.keys (LRU.cache (snd (hanoi_count_memo n a b c w))))
  /\ (LRU.calls (snd (hanoi_count_memo n a b c w))
        + List.length (LRU.keys (LRU.cache w))
      = LRU.calls w
        + List.length (LRU.keys (LRU.cache (snd (hanoi_count_memo n a b c w)))))%nat.
Proof.
  revert n a b c w.
  apply (memo_ind (fun n a b c w r w' =>
    LRU.capacity (LRU.cache w) = None ->
    NoDup (LRU.keys (LRU.cache w)) ->
    NoDup (LRU.keys (LRU.cache w'))
    /\ incl (LRU.keys (LRU.cache w)) (LRU.keys (LRU.cache w'))
    /\ (LRU.calls w' + List.length (LRU.keys (LRU.cache w))
        = LRU.calls w + List.length (LRU.keys (LRU.cache w')))%nat)).
  - intros n a b c w v Hl Hcap Hnd. cbn [LRU.cache LRU.calls].
    split; [| split].
    + now apply NoDup_keys_touch.
    + intros k Hin. apply in_keys_on_hit. now right.
    + unfold LRU.keys, LRU.on_hit, LRU.touch in *. cbn [LRU.entries].
      simpl. rewrite !length_map in *.
      assert (Hin : In (make_key n a b c) (map fst (LRU.entries (LRU.cache w)))).
      { apply lookup_some_in in Hl. now apply (in_map fst) in Hl. }
      pose proof (remove_key_present_length Key_eq_dec _ _ Hnd Hin). lia.
  - intros n a b c w Hle Hl Hcap Hnd. cbn [LRU.cache LRU.calls].
    unfold LRU.keys in *.
    rewrite (on_miss_entries_unbounded Key_eq_dec _ _ _ Hcap Hl). simpl.
    split; [| split].
    + constructor; [now apply lookup_none_iff in Hl | exact Hnd].
    + intros k Hin. now right.
    + lia.
  - intros n a b c w s1 w1 s2 w2 Hgt Hl E1 IH1 E2 IH2 Hcap Hnd.
    destruct (IH1 Hcap Hnd) as (Hnd1 & Hincl1 & Hcnt1).
    assert (Hcap1 : LRU.capacity (LRU.cache w1) = None).
    { pose proof (memo_frame (n - 1) a c b (snd (LRU.tick w))) as (Hc & _).
      rewrite E1 in Hc. simpl in Hc. congruence. }
    destruct (IH2 Hcap1 Hnd1) as (Hnd2 & Hincl2 & Hcnt2).
    assert (Hcap2 : LRU.capacity (LRU.cache w2) = None).
    { pose proof (memo_frame (n - 1) b a c w1) as (Hc & _).
      rewrite E2 in Hc. simpl in Hc. congruence. }
    assert (Habs : lookup (make_key n a b c) (LRU.entries (LRU.cache w2)) = None).
    { apply lookup_none_iff. intros Hin.
      pose proof (memo_keys_reachable (n - 1) b a c w1 (make_key n a b c)) as H2.
      rewrite E2 in H2. destruct (H2 Hin) as [Hin1 | Hr].
      - pose proof (memo_keys_reachable (n - 1) a c b (snd (LRU.tick w))
                      (make_key n a b c)) as H1.
        rewrite E1 in H1. destruct (H1 Hin1) as [Hin0 | Hr].
        + now apply lookup_none_iff in Hl.
        + apply reachable_disks in Hr. simpl in Hr. lia.
      - apply reachable_disks in Hr. simpl in Hr. lia. }
    cbn [LRU.cache LRU.calls] in *. unfold LRU.keys in *.
    rewrite (on_miss_entries_unbounded Key_eq_dec _ _ _ Hcap2 Habs). simpl.
    split; [| split].
    + constructor; [now apply lookup_none_iff in Habs | exact Hnd2].
    + intros k Hin. right. apply Hincl2, Hincl1. exact Hin.
    + simpl in Hcnt1. lia.
Qed.

(** *** Counting the keys of the call graph *)

Lemma orbit_swaps (e : bool) a b c (x y z : P) :
  In (x, y, z) (orbit e a b c) ->
  In (x, z, y) (orbit (negb e) a b c) /\ In (y, x, z) (orbit (negb e) a b c).
Proof.
  destruct e; simpl; intros [Heq | [Heq | [Heq | []]]];
    injection Heq as <- <- <-; tauto.
Qed.

Lemma level_length (g : bool) a b c (j : nat) :
  List.length (level g a b c j) = 3%nat.
Proof.
  unfold level. rewrite length_map. destruct (xorb g (Nat.odd j)); reflexivity.
Qed.

Lemma levels_below_length (g : bool) a b c (m : nat) :
  List.length (levels_below g a b c m) = (3 * m)%nat.
Proof.
  unfold levels_below.
  assert (Hfrom : forall start,
             List.length (flat_map (level g a b c) (seq start m)) = (3 * m)%nat).
  { induction m as [| m IH]; intros start; simpl; [reflexivity |].
    rewrite length_app, level_length, IH. lia. }
  apply Hfrom.
Qed.

Lemma in_levels_below (g : bool) a b c (j m : nat) (x y z : P) :
  (j < m)%nat -> In (x, y, z) (orbit (xorb g (Nat.odd j)) a b c) ->
  In (make_key (Z.of_nat j) x y z) (levels_below g a b c m).
Proof.
  intros Hlt Hin. unfold levels_below. apply in_flat_map.
  exists j. split; [apply in_seq; lia |].
  unfold level. apply in_map_iff. exists (x, y, z). now split.
Qed.

Lemma levels_below_mono (g : bool) a b c (m m' : nat) :
  (m <= m')%nat -> incl (levels_below g a b c m) (levels_below g a b c m').
Proof.
  intros Hle k Hin. unfold levels_below in *. apply in_flat_map in Hin.
  destruct Hin as (j & Hj & Hk). apply in_flat_map. exists j.
  split; [| exact Hk]. apply in_seq in Hj. apply in_seq. lia.
Qed.

(** The call graph below a key with [j] disks stays within the levels
    [0 .. j - 1] of the pole arrangements of alternating parity. *)
Lemma reachable_levels (g : bool) a b c (j : nat) :
  forall (x y z : P) k,
    In (x, y, z) (orbit (xorb g (Nat.odd j)) a b c) ->
    reachable (Z.of_nat j, x, y, z) k ->
    k = (Z.of_nat j, x, y, z) \/ In k (levels_below g a b c j).
Proof.
  induction j as [| j IH]; intros x y z k Hin Hr.
  - inversion Hr; subst; [now left | lia | lia].
  - assert (Hpar : xorb g (Nat.odd j) = negb (xorb g (Nat.odd (S j)))).
    { rewrite Nat.odd_succ, <- Nat.negb_odd.
      destruct g, (Nat.odd j); reflexivity. }
    destruct (orbit_swaps _ _ _ _ _ _ _ Hin) as [Hfirst Hsecond].
    rewrite <- Hpar in Hfirst, Hsecond.
    remember (Z.of_nat (S j)) as m eqn:Em.
    assert (Hpred : m - 1 = Z.of_nat j) by lia.
    assert (Hchild : forall x' y' z',
               In (x', y', z') (orbit (xorb g (Nat.odd j)) a b c) ->
               reachable (Z.of_nat j, x', y', z') k ->
               In k (levels_below g a b c (S j))).
    { intros x' y' z' Hin' Hr'.
      destruct (IH x' y' z' k Hin' Hr') as [-> | Hbelow].
      - apply (in_levels_below g a b c j (S j) x' y' z'); [lia | exact Hin'].
      - apply (levels_below_mono g a b c j (S j)); [lia | exact Hbelow]. }
    inversion Hr.
    + left. congruence.
    + right.
      match goal with
      | Hr' : reachable (m - 1, x, z, y) k |- _ =>
          rewrite Hpred in Hr'; now apply (Hchild x z y)
      end.
    + right.
      match goal with
      | Hr' : reachable (m - 1, y, x, z) k |- _ =>
          rewrite Hpred in Hr'; now apply (Hchild y x z)
      end.
Qed.

Lemma linear_below_exponential (n : Z) : 4 <= n -> 3 * n < 2 ^ n - 1.
Proof.
  intros Hn.
  assert (Hnat : forall k : nat, 3 * (Z.of_nat k + 4) < 2 ^ (Z.of_nat k + 4) - 1).
  { induction k as [| k IH]; [reflexivity |].
    replace (Z.of_nat (S k) + 4) with (Z.succ (Z.of_nat k + 4)) by lia.
    rewrite Z.pow_succ_r by lia. lia. }
  specialize (Hnat (Z.to_nat (n - 4))).
  replace (Z.of_nat (Z.to_nat (n - 4)) + 4) with n in Hnat by lia.
  exact Hnat.
Qed.

(** Without disks to move, the body runs once. *)
Lemma memo_calls_no_disks n a b c :
  n <= 0 ->
  LRU.calls (snd (hanoi_count_memo n a b c (fresh None))) = 1%nat.
Proof.
  intros Hle. rewrite memo_unfold. simpl.
  destruct (Z_gt_dec n 0); [lia | reflexivity].
Qed.

Lemma memo_calls_bound n a b c :
  1 <= n ->
  Z.of_nat (LRU.calls (snd (hanoi_count_memo n a b c (fresh None)))) <= 3 * n.
Proof.
  intros Hn.
  destruct (memo_unbounded n a b c (fresh None) eq_refl (NoDup_nil _))
    as (Hnd & _ & Hcnt).
  simpl in Hcnt. rewrite Nat.add_0_r in Hcnt.
  set (w' := snd (hanoi_count_memo n a b c (fresh None))) in *.
  set (j := Z.to_nat (n - 1)).
  set (g := Nat.odd j).
  set (U := [(n, a, b, c); (n - 1, a, c, b); (n - 1, b, a, c)]
              ++ levels_below g a b c j).
  assert (Hpar : xorb g (Nat.odd j) = false) by (unfold g; apply xorb_nilpotent).
  assert (Hj : Z.of_nat j = n - 1) by (unfold j; lia).
  assert (Hincl : incl (LRU.keys (LRU.cache w')) U).
  { intros k Hin. apply memo_keys_reachable in Hin.
    destruct Hin as [[] | Hr].
    assert (Hchild : forall x y z,
               In (x, y, z) (orbit false a b c) ->
               reachable (n - 1, x, y, z) k ->
               k = (n - 1, x, y, z) \/ In k (levels_below g a b c j)).
    { intros x y z Hin Hr'. rewrite <- Hj in *.
      apply reachable_levels; [now rewrite Hpar | exact Hr']. }
    unfold U. inversion Hr.
    - left. congruence.
    - match goal with
      | Hr' : reachable (n - 1, a, c, b) k |- _ =>
          destruct (Hchild a c b) as [-> | Hb]; [simpl; tauto | exact Hr' | |]
      end.
      + right. now left.
      + do 3 right. exact Hb.
    - match goal with
      | Hr' : reachable (n - 1, b, a, c) k |- _ =>
          destruct (Hchild b a c) as [-> | Hb]; [simpl; tauto | exact Hr' | |]
      end.
      + right. right. now left.
      + do 3 right. exact Hb. }
  pose proof (NoDup_incl_length Hnd Hincl) as Hle.
  unfold U in Hle. rewrite length_app, levels_below_length in Hle.
  simpl in Hle. lia.
Qed.

(** C5: from an empty unbounded cache, a decorated call with [n] disks
    leaves distinct keys in the cache, as many as the body was entered.
    Their number is linear in [n]: at most [3 * n] for [n >= 1], the
    number of disks times the three pole arrangements a level can see
    (and one when there is no disk to move). This is below [2^n - 1] from
    4 disks on, and for 24 disks a thousand times smaller. *)
Theorem memo_calls_linear n a b c :
  NoDup (LRU.keys (LRU.cache (snd (hanoi_count_memo n a b c (fresh None)))))
  /\ List.length (LRU.keys (LRU.cache (snd (hanoi_count_memo n a b c (fresh None)))))
     = LRU.calls (snd (hanoi_count_memo n a b c (fresh None)))
  /\ Z.of_nat (LRU.calls (snd (hanoi_count_memo n a b c (fresh None))))
     <= 3 * Z.max n 0 + 1
  /\ (1 <= n ->
      Z.of_nat (LRU.calls (snd (hanoi_count_memo n a b c (fresh None))))
      <= 3 * n)
  /\ (4 <= n ->
      Z.of_nat (LRU.calls (snd (hanoi_count_memo n a b c (fresh None))))
      < 2 ^ n - 1)
  /\ (n = 24 ->
      1000 * Z.of_nat (LRU.calls (snd (hanoi_count_memo n a b c (fresh None))))
      < 2 ^ 24 - 1).
Proof.
  destruct (memo_unbounded n a b c (fresh None) eq_refl (NoDup_nil _))
    as (Hnd & _ & Hcnt).
  simpl in Hcnt. rewrite Nat.add_0_r in Hcnt.
  split; [exact Hnd |]. split; [symmetry; exact Hcnt |].
  split; [| split; [| split]].
  - destruct (Z_le_gt_dec n 0) as [Hle | Hgt].
    + rewrite (memo_calls_no_disks n a b c Hle). lia.
    + pose proof (memo_calls_bound n a b c ltac:(lia)). lia.
  - apply memo_calls_bound.
  - intros H4. pose proof (memo_calls_bound n a b c ltac:(lia)).
    pose proof (linear_below_exponential n H4). lia.
  - intros ->. pose proof (memo_calls_bound 24 a b c ltac:(lia)).
    change (2 ^ 24 - 1) with 16777215. lia.
Qed.

(** *** Repeated calls *)

Lemma call_make_key n a b c : call (make_key n a b c) = hanoi_count_memo n a b c.
Proof. reflexivity. Qed.

Lemma consistent_fresh (cap : option nat) : consistent (P := P) (fresh cap).
Proof. unfold consistent, fresh. simpl. constructor. Qed.

Lemma consistent_lookup k v w :
  consistent w -> lookup k (LRU.entries (LRU.cache w)) = Some v -> v = plain k.
Proof.
  intros Hc Hl. unfold consistent in Hc. rewrite Forall_forall in Hc.
  apply (Hc (k, v)). now apply lookup_some_in in Hl.
Qed.

(** A call whose entry is in the cache is a hit: the stored result comes
    back and the body is not entered. *)
Lemma memo_hit n a b c w v :
  lookup (make_key n a b c) (LRU.entries (LRU.cache w)) = Some v ->
  fst (hanoi_count_memo n a b c w) = v
  /\ LRU.calls (snd (hanoi_count_memo n a b c w)) = LRU.calls w.
Proof. intros Hl. rewrite memo_unfold, Hl. now split. Qed.

(** A call whose entry is not in the cache is a miss: the body is
    entered. *)
Lemma memo_miss n a b c w :
  lookup (make_key n a b c) (LRU.entries (LRU.cache w)) = None ->
  (LRU.calls w < LRU.calls (snd (hanoi_count_memo n a b c w)))%nat.
Proof.
  intros Hl. rewrite memo_unfold, Hl.
  destruct (Z_gt_dec n 0); [| simpl; lia].
  pose proof (memo_frame (n - 1) a c b (snd (LRU.tick w))) as (_ & Hn1 & _).
  destruct (hanoi_count_memo (n - 1) a c b _) as [s1 w1].
  pose proof (memo_frame (n - 1) b a c w1) as (_ & Hn2 & _).
  destruct (hanoi_count_memo (n - 1) b a c w1) as [s2 w2].
  simpl in *. lia.
Qed.

Lemma memo_keys_kept n a b c w :
  LRU.capacity (LRU.cache w) = None ->
  incl (LRU.keys (LRU.cache w))
       (LRU.keys (LRU.cache (snd (hanoi_count_memo n a b c w)))).
Proof.
  revert n a b c w.
  apply (memo_ind (fun n a b c w r w' =>
    LRU.capacity (LRU.cache w) = None ->
    incl (LRU.keys (LRU.cache w)) (LRU.keys (LRU.cache w')))).
  - intros n a b c w v Hl Hcap k Hin. cbn [LRU.cache].
    apply in_keys_on_hit. now right.
  - intros n a b c w Hle Hl Hcap k Hin. cbn [LRU.cache].
    apply in_keys_on_miss_unbounded; [exact Hcap | now right].
  - intros n a b c w s1 w1 s2 w2 Hgt Hl E1 IH1 E2 IH2 Hcap k Hin.
    assert (Hcap1 : LRU.capacity (LRU.cache w1) = None).
    { pose proof (memo_frame (n - 1) a c b (snd (LRU.tick w))) as (Hc & _).
      rewrite E1 in Hc. simpl in Hc. congruence. }
    assert (Hcap2 : LRU.capacity (LRU.cache w2) = None).
    { pose proof (memo_frame (n - 1) b a c w1) as (Hc & _).
      rewrite E2 in Hc. simpl in Hc. congruence. }
    cbn [LRU.cache]. apply in_keys_on_miss_unbounded; [exact Hcap2 |].
    right. apply (IH2 Hcap1), (IH1 Hcap). exact Hin.
Qed.

Lemma call_all_frame (ks : list (Key P)) w :
  consistent w ->
  consistent (call_all ks w)
  /\ LRU.capacity (LRU.cache (call_all ks w)) = LRU.capacity (LRU.cache w)
  /\ (LRU.capacity (LRU.cache w) = None ->
      incl (LRU.keys (LRU.cache w)) (LRU.keys (LRU.cache (call_all ks w)))).
Proof.
  revert w. induction ks as [| [[[n a] b] c] ks IH]; intros w Hc; simpl.
  - repeat split; [exact Hc |]. intros _. apply incl_refl.
  - destruct (memo_sound n a b c w Hc) as [_ Hc'].
    destruct (memo_frame n a b c w) as (Hcap' & _).
    destruct (IH _ Hc') as (Hc2 & Hcap2 & Hincl2).
    split; [exact Hc2 |]. split; [congruence |].
    intros Hnone. apply incl_tran with (2 := Hincl2 ltac:(congruence)).
    now apply memo_keys_kept.
Qed.

(** Calls repeated immediately are all hits on the entry at the head. *)
Lemma call_all_repeat n a b c v (m : nat) :
  forall w rest,
    LRU.entries (LRU.cache w) = (make_key n a b c, v) :: rest ->
    LRU.calls (call_all (repeat (make_key n a b c) m) w) = LRU.calls w
    /\ lookup (make_key n a b c)
              (LRU.entries (LRU.cache (call_all (repeat (make_key n a b c) m) w)))
       = Some v.
Proof.
  assert (Hhead : forall rest,
             lookup (make_key n a b c) ((make_key n a b c, v) :: rest) = Some v).
  { intros rest. apply lookup_head. }
  induction m as [| m IH]; intros w rest Hw; simpl.
  - split; [reflexivity |]. rewrite Hw. apply Hhead.
  - pose proof (Hhead rest) as Hl. rewrite <- Hw in Hl.
    destruct (memo_hit n a b c w v Hl) as [_ Hcalls].
    rewrite <- Hcalls. apply (IH _ (LRU.remove_key Key_eq_dec (make_key n a b c)
                                      (LRU.entries (LRU.cache w)))).
    rewrite memo_unfold, Hl. reflexivity.
Qed.

(** C2 (as amended): from a consistent cache the decorated [hanoi_count]
    returns what the undecorated one returns; a later call with the same
    arguments whose entry is still in the cache returns that result
    without entering the body again. The entry is still there for calls
    repeated immediately, and for every later call when the cache is
    unbounded. *)
Theorem memo_agrees_and_repeats n a b c w :
  consistent w ->
  fst (hanoi_count_memo n a b c w) = hanoi_count n a b c
  /\ (forall ks,
        In (make_key n a b c)
           (LRU.keys (LRU.cache (call_all ks (snd (hanoi_count_memo n a b c w))))) ->
        fst (hanoi_count_memo n a b c
               (call_all ks (snd (hanoi_count_memo n a b c w))))
        = hanoi_count n a b c
        /\ LRU.calls (snd (hanoi_count_memo n a b c
                             (call_all ks (snd (hanoi_count_memo n a b c w)))))
           = LRU.calls (call_all ks (snd (hanoi_count_memo n a b c w))))
  /\ (LRU.capacity (LRU.cache w) <> Some 0%nat ->
      forall m : nat,
        In (make_key n a b c)
           (LRU.keys (LRU.cache (call_all (repeat (make_key n a b c) m)
                                          (snd (hanoi_count_memo n a b c w)))))
        /\ LRU.calls (call_all (repeat (make_key n a b c) m)
                               (snd (hanoi_count_memo n a b c w)))
           = LRU.calls (snd (hanoi_count_memo n a b c w)))
  /\ (LRU.capacity (LRU.cache w) = None ->
      forall ks,
        In (make_key n a b c)
           (LRU.keys (LRU.cache (call_all ks (snd (hanoi_count_memo n a b c w)))))).
Proof.
  intros Hc.
  destruct (memo_sound n a b c w Hc) as [Hval Hc1].
  destruct (memo_frame n a b c w) as (Hcap1 & _ & Hhead).
  split; [exact Hval |]. split; [| split].
  - intros ks Hin.
    destruct (call_all_frame ks _ Hc1) as (Hc2 & _ & _).
    apply (in_keys_lookup Key_eq_dec) in Hin. destruct Hin as [v Hl].
    destruct (memo_hit n a b c _ v Hl) as [Hr Hcalls].
    split; [| exact Hcalls].
    rewrite Hr. apply (consistent_lookup _ _ _ Hc2 Hl).
  - intros Hcap m. destruct (Hhead Hcap) as [rest Hrest].
    destruct (call_all_repeat n a b c _ m _ rest Hrest) as [Hcalls Hl].
    split; [| exact Hcalls].
    apply lookup_some_in in Hl. now apply (in_map fst) in Hl.
  - intros Hcap ks.
    destruct (call_all_frame ks _ Hc1) as (_ & _ & Hincl).
    apply Hincl; [congruence |].
    destruct (Hhead ltac:(congruence)) as [rest Hrest].
    unfold LRU.keys. rewrite Hrest. now left.
Qed.

(** *** Calls that differ in an argument *)

Lemma make_key_distinct n a b c (n' : Z) (a' b' c' : P) :
  n <> n' \/ a <> a' \/ b <> b' \/ c <> c' ->
  make_key n a b c <> make_key n' a' b' c'.
Proof. unfold make_key. intros Hdiff [= -> -> -> ->]. tauto. Qed.

(** After a call from an empty cache, no other key with at least as many
    disks is in the cache. *)
Lemma memo_fresh_absent n a b c (n' : Z) (a' b' c' : P) (cap : option nat) :
  make_key n a b c <> make_key n' a' b' c' -> n <= n' ->
  lookup (make_key n' a' b' c')
         (LRU.entries (LRU.cache (snd (hanoi_count_memo n a b c (fresh cap)))))
  = None.
Proof.
  intros Hne Hle. apply lookup_none_iff. intros Hin.
  apply memo_keys_reachable in Hin. destruct Hin as [[] | Hr].
  assert (Hd := reachable_disks _ _ Hr). simpl in Hd.
  assert (n' = n) by lia. subst n'.
  inversion Hr; [congruence | |];
    match goal with
    | Hr' : reachable (n - 1, _, _, _) _ |- _ =>
        apply reachable_disks in Hr'; simpl in Hr'; lia
    end.
Qed.

(** In an unbounded cache, after two calls one after the other both keys
    are stored, each with its own result. *)
Lemma memo_both_kept_unbounded n a b c (n' : Z) (a' b' c' : P) w :
  LRU.capacity (LRU.cache w) = None -> consistent w ->
  lookup (make_key n a b c)
         (LRU.entries
            (LRU.cache (snd (hanoi_count_memo n' a' b' c'
                               (snd (hanoi_count_memo n a b c w))))))
  = Some (hanoi_count n a b c)
  /\ lookup (make_key n' a' b' c')
            (LRU.entries
               (LRU.cache (snd (hanoi_count_memo n' a' b' c'
                                  (snd (hanoi_count_memo n a b c w))))))
     = Some (hanoi_count n' a' b' c').
Proof.
  intros Hcap Hc.
  destruct (memo_sound n a b c w Hc) as [Hv1 Hc1].
  destruct (memo_frame n a b c w) as (Hcap1 & _ & Hhead1).
  destruct (memo_sound n' a' b' c' _ Hc1) as [Hv2 Hc2].
  destruct (memo_frame n' a' b' c' (snd (hanoi_count_memo n a b c w)))
    as (Hcap2 & _ & Hhead2).
  destruct (Hhead1 ltac:(congruence)) as [rest1 Hrest1].
  destruct (Hhead2 ltac:(congruence)) as [rest2 Hrest2].
  split.
  - assert (Hin : In (make_key n a b c)
                     (LRU.keys (LRU.cache (snd (hanoi_count_memo n' a' b' c'
                                                  (snd (hanoi_count_memo n a b c w))))))).
    { apply memo_keys_kept; [congruence |].
      unfold LRU.keys. rewrite Hrest1. now left. }
    apply (in_keys_lookup Key_eq_dec) in Hin. destruct Hin as [v Hl].
    rewrite Hl. f_equal. apply (consistent_lookup _ _ _ Hc2 Hl).
  - rewrite Hrest2, Hv2. apply lookup_head.
Qed.

End MemoFacts.

(** * Properties of the listed steps *)

Section PuzzleFacts.

Context {P : Type} `{PoleLike P}.

Implicit Types (n d : Z) (a b c : P) (r : Rods P).

Lemma hanoi_moves_pos n a b c :
  n > 0 ->
  hanoi_moves n a b c
  = hanoi_moves (n - 1) a c b ++ mkMove n a c :: hanoi_moves (n - 1) b a c.
Proof.
  intros Hn. rewrite hanoi_moves_equation_1.
  destruct (Z_gt_dec n 0) as [Hpos | Hneg]; [| contradiction].
  simpl. now rewrite <- app_assoc.
Qed.

Lemma hanoi_moves_nonpos n a b c : n <= 0 -> hanoi_moves n a b c = [].
Proof.
  intros Hn. rewrite hanoi_moves_equation_1.
  destruct (Z_gt_dec n 0) as [Hpos | Hneg]; [lia | reflexivity].
Qed.

(** The steps [hanoi] lists are the formatted steps of [hanoi_moves]. *)
Lemma hanoi_renders_moves n a b c :
  hanoi n a b c = map render (hanoi_moves n a b c).
Proof.
  revert a b c. pattern n. apply disks_ind; clear n.
  - intros n Hle a b c. now rewrite hanoi_nonpos, hanoi_moves_nonpos.
  - intros n Hgt IH a b c.
    rewrite (hanoi_pos n a b c Hgt), (hanoi_moves_pos n a b c Hgt).
    rewrite map_app, !IH. simpl. now rewrite <- app_assoc.
Qed.

Lemma tower_nonpos n : n <= 0 -> tower n = [].
Proof.
  intros Hn. unfold tower. replace (Z.to_nat n) with 0%nat by lia. reflexivity.
Qed.

Lemma tower_pos n : n > 0 -> tower n = tower (n - 1) ++ [n].
Proof.
  intros Hn. unfold tower.
  replace (Z.to_nat n) with (S (Z.to_nat (n - 1))) by lia.
  rewrite seq_S, map_app. simpl. do 2 f_equal. lia.
Qed.

Lemma put_same r (p : P) (stack : list Z) : put r p stack p = stack.
Proof. unfold put. destruct (pole_eq_dec p p); [reflexivity | contradiction]. Qed.

Lemma put_other r (p q : P) (stack : list Z) :
  q <> p -> put r p stack q = r q.
Proof.
  intros Hne. unfold put. destruct (pole_eq_dec q p); [contradiction | reflexivity].
Qed.

Lemma play_app (ms1 ms2 : list (Move P)) r :
  play (ms1 ++ ms2) r
  = match play ms1 r with
    | Some r' => play ms2 r'
    | None => None
    end.
Proof.
  revert r. induction ms1 as [| m ms1 IH]; intros r; simpl; [reflexivity |].
  destruct (move m r); [apply IH | reflexivity].
Qed.

(** A legal step of the top disk [d] of rod [a] onto rod [c]. *)
Lemma move_top d a c r (rest : list Z) :
  a <> c -> r a = d :: rest -> (forall t, In t (r c) -> d < t) ->
  move (mkMove d a c) r = Some (put (put r a rest) c (d :: r c)).
Proof.
  intros Hac Ha Hc. unfold move. simpl.
  destruct (pole_eq_dec a c); [contradiction |].
  rewrite Ha, Z.eqb_refl. simpl.
  destruct (r c) as [| t stack] eqn:E; [reflexivity |]. simpl.
  destruct (Z.ltb_spec d t) as [Hlt | Hge]; [reflexivity |].
  specialize (Hc t (or_introl eq_refl)). lia.
Qed.

(** The steps for [n] disks take the [n] top disks of the start rod, which
    are the disks [1 .. n], to the end rod, as long as every other disk in
    play is larger; no rule is broken and nothing else changes. *)
Lemma play_hanoi n :
  forall a b c r (rest : list Z),
    a <> b -> a <> c -> b <> c ->
    r a = tower n ++ rest ->
    (forall t, In t rest -> n < t) ->
    (forall t, In t (r b) -> n < t) ->
    (forall t, In t (r c) -> n < t) ->
    exists r',
      play (hanoi_moves n a b c) r = Some r'
      /\ r' a = rest /\ r' b = r b /\ r' c = tower n ++ r c
      /\ (forall p, p <> a -> p <> b -> p <> c -> r' p = r p).
Proof.
  pattern n. apply disks_ind; clear n.
  - intros n Hle a b c r rest Hab Hac Hbc Ha _ _ _.
    rewrite hanoi_moves_nonpos by assumption.
    rewrite tower_nonpos in * by assumption.
    exists r. simpl. repeat split; auto.
  - intros n Hgt IH a b c r rest Hab Hac Hbc Ha Hrest Hb Hc.
    rewrite (hanoi_moves_pos n a b c Hgt), play_app.
    rewrite (tower_pos n Hgt), <- app_assoc in Ha. simpl in Ha.
    destruct (IH a c b r (n :: rest)) as (r1 & Hplay1 & Ha1 & Hc1 & Hb1 & Hothers1);
      auto.
    { intros t [<- | Ht]; [lia | specialize (Hrest t Ht); lia]. }
    { intros t Ht. specialize (Hc t Ht). lia. }
    { intros t Ht. specialize (Hb t Ht). lia. }
    rewrite Hplay1. simpl.
    rewrite (move_top n a c r1 rest Hac Ha1)
      by (intros t Ht; rewrite Hc1 in Ht; now apply Hc).
    set (r2 := put (put r1 a rest) c (n :: r1 c)).
    assert (Ha2 : r2 a = rest).
    { unfold r2. rewrite put_other by assumption. apply put_same. }
    assert (Hb2 : r2 b = tower (n - 1) ++ r b).
    { unfold r2. rewrite !put_other by auto. exact Hb1. }
    assert (Hc2 : r2 c = n :: r c).
    { unfold r2. rewrite put_same. now rewrite Hc1. }
    destruct (IH b a c r2 (r b)) as (r3 & Hplay3 & Hb3 & Ha3 & Hc3 & Hothers3);
      auto.
    { intros t Ht. specialize (Hb t Ht). lia. }
    { intros t Ht. rewrite Ha2 in Ht. specialize (Hrest t Ht). lia. }
    { intros t Ht. rewrite Hc2 in Ht.
      destruct Ht as [<- | Ht]; [lia | specialize (Hc t Ht); lia]. }
    exists r3. split; [exact Hplay3 |].
    split; [now rewrite Ha3 |]. split; [exact Hb3 |]. split.
    + rewrite Hc3, Hc2, (tower_pos n Hgt), <- app_assoc. reflexivity.
    + intros p Hpa Hpb Hpc. rewrite Hothers3 by auto.
      unfold r2. rewrite !put_other by auto. now apply Hothers1.
Qed.

(** X1: with three different rods, the steps listed by [hanoi] solve the
    puzzle. Played from the tower [1 .. n] on the start rod, each step takes
    the upper disk of a rod onto an empty rod or a larger disk, and at the
    end the tower stands on the end rod and every other rod is empty. *)
Theorem hanoi_solves n a b c :
  a <> b -> a <> c -> b <> c ->
  hanoi n a b c = map render (hanoi_moves n a b c)
  /\ exists r,
       play (hanoi_moves n a b c) (all_on n a) = Some r
       /\ r c = tower n
       /\ (forall p, p <> c -> r p = []).
Proof.
  intros Hab Hac Hbc. split; [apply hanoi_renders_moves |].
  assert (Hstart : all_on n a a = tower n ++ []).
  { unfold all_on. rewrite app_nil_r.
    destruct (pole_eq_dec a a); [reflexivity | contradiction]. }
  assert (Hempty : forall p, p <> a -> all_on n a p = []).
  { intros p Hp. unfold all_on.
    destruct (pole_eq_dec p a); [contradiction | reflexivity]. }
  destruct (play_hanoi n a b c (all_on n a) [] Hab Hac Hbc Hstart)
    as (r & Hplay & Ha & Hb & Hc & Hothers).
  - intros t [].
  - rewrite Hempty by auto. intros t [].
  - rewrite Hempty by auto. intros t [].
  - exists r. split; [exact Hplay |]. split.
    + rewrite Hc, Hempty by auto. apply app_nil_r.
    + intros p Hpc.
      destruct (pole_eq_dec p a) as [-> | Hpa]; [exact Ha |].
      destruct (pole_eq_dec p b) as [-> | Hpb].
      * rewrite Hb. apply Hempty. auto.
      * rewrite Hothers by assumption. now apply Hempty.
Qed.

(** X2: for [n >= 0], [hanoi] lists [2^n - 1] steps. *)
Theorem hanoi_length n a b c :
  0 <= n -> Z.of_nat (List.length (hanoi n a b c)) = 2 ^ n - 1.
Proof.
  revert a b c. pattern n. apply disks_ind; clear n.
  - intros n Hle a b c Hge. assert (n = 0) by lia. subst n.
    rewrite hanoi_nonpos by lia. reflexivity.
  - intros n Hgt IH a b c _.
    rewrite (hanoi_pos n a b c Hgt).
    rewrite !length_app, !Nat2Z.inj_add, !IH by lia. simpl.
    replace n with (Z.succ (n - 1)) at 3 by lia.
    rewrite Z.pow_succ_r by lia. lia.
Qed.

Lemma moves_of_app d (ms1 ms2 : list (Move P)) :
  moves_of d (ms1 ++ ms2) = (moves_of d ms1 + moves_of d ms2)%nat.
Proof. unfold moves_of. now rewrite filter_app, length_app. Qed.

Lemma moves_of_hanoi n :
  forall d a b c,
    1 <= d ->
    Z.of_nat (moves_of d (hanoi_moves n a b c))
    = if d <=? n then 2 ^ (n - d) else 0.
Proof.
  pattern n. apply disks_ind; clear n.
  - intros n Hle d a b c Hd. rewrite hanoi_moves_nonpos by assumption.
    destruct (Z.leb_spec d n); [lia | reflexivity].
  - intros n Hgt IH d a b c Hd.
    rewrite (hanoi_moves_pos n a b c Hgt), moves_of_app.
    change (mkMove n a c :: hanoi_moves (n - 1) b a c)
      with ([mkMove n a c] ++ hanoi_moves (n - 1) b a c).
    rewrite moves_of_app, !Nat2Z.inj_add, !IH by assumption.
    assert (Hmid : Z.of_nat (moves_of d [mkMove n a c])
                   = if n =? d then 1 else 0).
    { unfold moves_of. simpl. destruct (n =? d); reflexivity. }
    rewrite Hmid.
    destruct (Z.leb_spec d n) as [Hdn | Hdn].
    + destruct (Z.eqb_spec n d) as [-> | Hne].
      * destruct (Z.leb_spec d (d - 1)); [lia |].
        rewrite Z.sub_diag. reflexivity.
      * destruct (Z.leb_spec d (n - 1)); [| lia].
        replace (n - d) with (Z.succ (n - 1 - d)) by lia.
        rewrite Z.pow_succ_r by lia. lia.
    + destruct (Z.eqb_spec n d); [lia |].
      destruct (Z.leb_spec d (n - 1)); [lia | reflexivity].
Qed.

(** X3: among the steps listed by [hanoi] for [n] disks, disk [d] of
    [1 .. n] is moved exactly [2^(n-d)] times: the largest disk once, the
    smallest every other step. *)
Theorem hanoi_moves_per_disk n d a b c :
  1 <= d <= n ->
  hanoi n a b c = map render (hanoi_moves n a b c)
  /\ Z.of_nat (moves_of d (hanoi_moves n a b c)) = 2 ^ (n - d).
Proof.
  intros [Hd Hdn]. split; [apply hanoi_renders_moves |].
  rewrite moves_of_hanoi by assumption.
  destruct (Z.leb_spec d n); [reflexivity | lia].
Qed.

(** X4: every step listed by [hanoi] moves one of the disks [1 .. n] from
    one of the three rods given to another of them; no other disk or rod is
    ever mentioned. *)
Theorem hanoi_steps_shape n a b c :
  Forall (fun step =>
            exists d x y,
              step = move_step d x y
              /\ 1 <= d <= n
              /\ In x [a; b; c] /\ In y [a; b; c])
         (hanoi n a b c).
Proof.
  revert a b c. pattern n. apply disks_ind; clear n.
  - intros n Hle a b c. rewrite hanoi_nonpos by assumption. constructor.
  - intros n Hgt IH a b c. rewrite (hanoi_pos n a b c Hgt). simpl.
    assert (Hweaken : forall a0 b0 c0 step,
               (forall p, In p [a0; b0; c0] -> In p [a; b; c]) ->
               (exists d x y,
                   step = move_step d x y /\ 1 <= d <= n - 1
                   /\ In x [a0; b0; c0] /\ In y [a0; b0; c0]) ->
               exists d x y,
                 step = move_step d x y /\ 1 <= d <= n
                 /\ In x [a; b; c] /\ In y [a; b; c]).
    { intros a0 b0 c0 step Hsub (d & x & y & Hstep & Hd & Hx & Hy).
      exists d, x, y. repeat split; auto; lia. }
    apply Forall_app. split; [apply Forall_app; split |].
    + eapply Forall_impl; [| apply (IH a c b)].
      intros step. apply Hweaken. simpl. tauto.
    + constructor; [| constructor].
      exists n, a, c. repeat split; simpl; auto; lia.
    + eapply Forall_impl; [| apply (IH b a c)].
      intros step. apply Hweaken. simpl. tauto.
Qed.

End PuzzleFacts.

(** X5: the count does not depend on the rods named, nor on what kind of
    value names them: only the number of disks matters. *)
Theorem hanoi_count_poles {P Q : Type} (n : Z) (a b c : P) (a' b' c' : Q) :
  hanoi_count n a b c = hanoi_count n a' b' c'.
Proof.
  revert a b c a' b' c'. pattern n. apply disks_ind; clear n.
  - intros n Hle a b c a' b' c'. now rewrite !hanoi_count_nonpos.
  - intros n Hgt IH a b c a' b' c'.
    rewrite (hanoi_count_pos n a b c Hgt), (hanoi_count_pos n a' b' c' Hgt).
    now rewrite (IH a c b a' c' b'), (IH b a c b' a' c').
Qed.

(** * Invariants of the cache under decorated calls *)

Section CacheInvariants.

Context {P : Type} `{PoleLike P}.

Local Abbreviation lookup := (LRU.lookup (K := Key P) (V := Z) Key_eq_dec).
Local Abbreviation on_hit := (LRU.on_hit (K := Key P) (V := Z) Key_eq_dec).
Local Abbreviation on_miss := (LRU.on_miss (K := Key P) (V := Z) Key_eq_dec).

Implicit Types (n : Z) (a b c : P) (w : LRU.World (Key P) Z) (k : Key P).

Lemma NoDup_keys_removelast (l : list (Key P * Z)) :
  NoDup (map fst l) -> NoDup (map fst (removelast l)).
Proof.
  induction l as [| e l IH]; [constructor |].
  intros Hnd. inversion Hnd as [| ? ? Hnot Hrest]; subst.
  destruct l as [| e' l']; [constructor |].
  change (removelast (e :: e' :: l')) with (e :: removelast (e' :: l')).
  simpl map. constructor; [| now apply IH].
  intros Hin. apply Hnot. apply in_map_iff in Hin.
  destruct Hin as (x & Hx & Hin). apply in_map_iff. exists x.
  split; [exact Hx | now apply in_removelast].
Qed.

Lemma NoDup_keys_on_miss k (v : Z) (cch : LRU.Cache (Key P) Z) :
  NoDup (LRU.keys cch) -> NoDup (LRU.keys (on_miss k v cch)).
Proof.
  intros Hnd. unfold LRU.keys, LRU.on_miss in *. cbn [LRU.entries].
  pose proof (NoDup_keys_touch Key_eq_dec k v _ Hnd) as Ht.
  destruct (LRU.over_capacity _ _); [| exact Ht].
  now apply NoDup_keys_removelast.
Qed.

(** One decorated call: the bound, the distinctness of the keys and the
    agreement of the miss count with the call counter are all kept. *)
Lemma memo_invariants n a b c w :
  (forall cap,
      LRU.capacity (LRU.cache w) = Some cap ->
      (LRU.size (LRU.cache w) <= cap)%nat ->
      (LRU.size (LRU.cache (snd (hanoi_count_memo n a b c w))) <= cap)%nat)
  /\ (NoDup (LRU.keys (LRU.cache w)) ->
      NoDup (LRU.keys (LRU.cache (snd (hanoi_count_memo n a b c w)))))
  /\ (LRU.misses (LRU.cache (snd (hanoi_count_memo n a b c w))) + LRU.calls w
      = LRU.misses (LRU.cache w) + LRU.calls (snd (hanoi_count_memo n a b c w)))%nat.
Proof.
  revert n a b c w.
  apply (memo_ind (fun n a b c w r w' =>
    (forall cap,
        LRU.capacity (LRU.cache w) = Some cap ->
        (LRU.size (LRU.cache w) <= cap)%nat ->
        (LRU.size (LRU.cache w') <= cap)%nat)
    /\ (NoDup (LRU.keys (LRU.cache w)) -> NoDup (LRU.keys (LRU.cache w')))
    /\ (LRU.misses (LRU.cache w') + LRU.calls w
        = LRU.misses (LRU.cache w) + LRU.calls w')%nat)).
  - intros n a b c w v Hl. cbn [LRU.cache LRU.calls]. split; [| split].
    + intros cap Hcap Hsz. now apply on_hit_size.
    + intros Hnd. now apply NoDup_keys_touch.
    + simpl. lia.
  - intros n a b c w Hle Hl. cbn [LRU.cache LRU.calls]. split; [| split].
    + intros cap Hcap Hsz. now apply on_miss_size.
    + apply NoDup_keys_on_miss.
    + simpl. lia.
  - intros n a b c w s1 w1 s2 w2 Hgt Hl E1 (Hsz1 & Hnd1 & Hm1) E2 (Hsz2 & Hnd2 & Hm2).
    cbn [LRU.cache LRU.calls] in *.
    assert (Hc1 : LRU.capacity (LRU.cache w1) = LRU.capacity (LRU.cache w)).
    { pose proof (memo_frame (n - 1) a c b (snd (LRU.tick w))) as (Hc & _).
      now rewrite E1 in Hc. }
    assert (Hc2 : LRU.capacity (LRU.cache w2) = LRU.capacity (LRU.cache w)).
    { pose proof (memo_frame (n - 1) b a c w1) as (Hc & _).
      rewrite E2 in Hc. simpl in Hc. congruence. }
    split; [| split].
    + intros cap Hcap Hsz. apply on_miss_size; [congruence |].
      apply Hsz2; [congruence |]. now apply Hsz1.
    + intros Hnd. apply NoDup_keys_on_miss. auto.
    + simpl in *. lia.
Qed.

(** X6: the decorated function never lets its cache grow past the bound:
    after any sequence of decorated calls on a cache within its capacity,
    the cache is within its capacity. *)
Theorem memo_within_capacity (ks : list (Key P)) w (cap : nat) :
  LRU.capacity (LRU.cache w) = Some cap ->
  (LRU.size (LRU.cache w) <= cap)%nat ->
  (LRU.size (LRU.cache (call_all ks w)) <= cap)%nat.
Proof.
  revert w. induction ks as [| [[[n a] b] c] ks IH]; intros w Hcap Hsz; simpl.
  - exact Hsz.
  - apply IH.
    + destruct (memo_frame n a b c w) as (Hc & _). congruence.
    + destruct (memo_invariants n a b c w) as (Hbound & _). now apply Hbound.
Qed.

(** X7: whatever the capacity, no key is ever stored twice: after any
    sequence of decorated calls the keys of the cache are still distinct. *)
Theorem memo_keys_distinct (ks : list (Key P)) w :
  NoDup (LRU.keys (LRU.cache w)) ->
  NoDup (LRU.keys (LRU.cache (call_all ks w))).
Proof.
  revert w. induction ks as [| [[[n a] b] c] ks IH]; intros w Hnd; simpl.
  - exact Hnd.
  - apply IH. destruct (memo_invariants n a b c w) as (_ & Hdistinct & _).
    now apply Hdistinct.
Qed.

(** X8: the miss count of the cache advances exactly as often as the body
    of the decorated function is entered, over any sequence of decorated
    calls; from a new cache the two are equal. *)
Theorem memo_misses_are_calls (ks : list (Key P)) w :
  (LRU.misses (LRU.cache (call_all ks w)) + LRU.calls w
   = LRU.misses (LRU.cache w) + LRU.calls (call_all ks w))%nat.
Proof.
  revert w. induction ks as [| [[[n a] b] c] ks IH]; intros w; simpl.
  - lia.
  - specialize (IH (snd (hanoi_count_memo n a b c w))).
    destruct (memo_invariants n a b c w) as (_ & _ & Hone). lia.
Qed.

End CacheInvariants.

(** * The exact cost of a first decorated call *)

Section ExactCount.

Context {P : Type} `{PoleLike P}.

Local Abbreviation lookup := (LRU.lookup (K := Key P) (V := Z) Key_eq_dec).

Implicit Types (n : Z) (a b c : P) (w : LRU.World (Key P) Z) (k : Key P).

Lemma reachable_trans k k' k'' :
  reachable k k' -> reachable k' k'' -> reachable k k''.
Proof.
  induction 1 as [k | n a b c k' Hn _ IH | n a b c k' Hn _ IH]; intros Hr.
  - exact Hr.
  - apply reach_first; auto.
  - apply reach_second; auto.
Qed.

Lemma reachable_children (j : nat) (x y z : P) :
  reachable (Z.of_nat (S j), x, y, z) (Z.of_nat j, x, z, y)
  /\ reachable (Z.of_nat (S j), x, y, z) (Z.of_nat j, y, x, z).
Proof.
  assert (Hpred : Z.of_nat (S j) - 1 = Z.of_nat j) by lia.
  split.
  - apply reach_first; [lia |]. rewrite Hpred. apply reach_here.
  - apply reach_second; [lia |]. rewrite Hpred. apply reach_here.
Qed.

(** With an unbounded cache, a cache that holds the whole call graph of
    each of its keys still does after a decorated call, and then holds the
    key of that call. *)
Lemma memo_closed n a b c w :
  LRU.capacity (LRU.cache w) = None ->
  (forall k k', In k (LRU.keys (LRU.cache w)) -> reachable k k' ->
                In k' (LRU.keys (LRU.cache w))) ->
  (forall k k',
      In k (LRU.keys (LRU.cache (snd (hanoi_count_memo n a b c w)))) ->
      reachable k k' ->
      In k' (LRU.keys (LRU.cache (snd (hanoi_count_memo n a b c w)))))
  /\ In (n, a, b, c) (LRU.keys (LRU.cache (snd (hanoi_count_memo n a b c w)))).
Proof.
  revert n a b c w.
  apply (memo_ind (fun n a b c w r w' =>
    LRU.capacity (LRU.cache w) = None ->
    (forall k k', In k (LRU.keys (LRU.cache w)) -> reachable k k' ->
                  In k' (LRU.keys (LRU.cache w))) ->
    (forall k k', In k (LRU.keys (LRU.cache w')) -> reachable k k' ->
                  In k' (LRU.keys (LRU.cache w')))
    /\ In (n, a, b, c) (LRU.keys (LRU.cache w')))).
  - intros n a b c w v Hl Hcap Hclosed. cbn [LRU.cache].
    assert (Hin : In (n, a, b, c) (LRU.keys (LRU.cache w))).
    { apply lookup_some_in in Hl. now apply (in_map fst) in Hl. }
    split.
    + intros k k' Hk Hr. apply in_keys_on_hit. right.
      apply in_keys_on_hit in Hk. destruct Hk as [-> | Hk]; eauto.
    + apply in_keys_on_hit. now left.
  - intros n a b c w Hle Hl Hcap Hclosed. cbn [LRU.cache].
    split.
    + intros k k' Hk Hr.
      apply in_keys_on_miss_unbounded; [exact Hcap |].
      apply in_keys_on_miss_unbounded in Hk; [| exact Hcap].
      destruct Hk as [-> | Hk]; [| right; eauto].
      left. inversion Hr; [congruence | lia | lia].
    + apply in_keys_on_miss_unbounded; [exact Hcap | now left].
  - intros n a b c w s1 w1 s2 w2 Hgt Hl E1 IH1 E2 IH2 Hcap Hclosed.
    destruct (IH1 Hcap Hclosed) as [Hclosed1 Hin1].
    assert (Hcap1 : LRU.capacity (LRU.cache w1) = None).
    { pose proof (memo_frame (n - 1) a c b (snd (LRU.tick w))) as (Hc & _).
      rewrite E1 in Hc. simpl in Hc. congruence. }
    destruct (IH2 Hcap1 Hclosed1) as [Hclosed2 Hin2].
    assert (Hcap2 : LRU.capacity (LRU.cache w2) = None).
    { pose proof (memo_frame (n - 1) b a c w1) as (Hc & _).
      rewrite E2 in Hc. simpl in Hc. congruence. }
    assert (Hkept : In (n - 1, a, c, b) (LRU.keys (LRU.cache w2))).
    { pose proof (memo_keys_kept (n - 1) b a c w1 Hcap1) as Hincl.
      rewrite E2 in Hincl. now apply Hincl. }
    cbn [LRU.cache]. split.
    + intros k k' Hk Hr.
      apply in_keys_on_miss_unbounded; [exact Hcap2 |].
      apply in_keys_on_miss_unbounded in Hk; [| exact Hcap2].
      destruct Hk as [-> | Hk]; [| right; eauto].
      inversion Hr; [left; congruence | right | right].
      * match goal with
        | Hr' : reachable (n - 1, a, c, b) k' |- _ => exact (Hclosed2 _ _ Hkept Hr')
        end.
      * match goal with
        | Hr' : reachable (n - 1, b, a, c) k' |- _ => exact (Hclosed2 _ _ Hin2 Hr')
        end.
    + apply in_keys_on_miss_unbounded; [exact Hcap2 | now left].
Qed.

Lemma orbit_onto (e : bool) a b c (q : P * P * P) :
  In q (orbit (negb e) a b c) ->
  exists x y z,
    In (x, y, z) (orbit e a b c) /\ (q = (x, z, y) \/ q = (y, x, z)).
Proof.
  destruct e; simpl; intros [<- | [<- | [<- | []]]].
  - exists a, b, c. tauto.
  - exists a, b, c. tauto.
  - exists c, a, b. tauto.
  - exists a, c, b. tauto.
  - exists a, c, b. tauto.
  - exists b, a, c. tauto.
Qed.

Lemma in_level (g : bool) a b c (j : nat) k :
  In k (level g a b c j) <->
  exists x y z,
    k = (Z.of_nat j, x, y, z) /\ In (x, y, z) (orbit (xorb g (Nat.odd j)) a b c).
Proof.
  unfold level. rewrite in_map_iff. split.
  - intros ([[x y] z] & <- & Hin). now exists x, y, z.
  - intros (x & y & z & -> & Hin). now exists (x, y, z).
Qed.

Lemma levels_below_succ (g : bool) a b c (m : nat) :
  levels_below g a b c (S m) = levels_below g a b c m ++ level g a b c m.
Proof.
  unfold levels_below. rewrite seq_S, flat_map_app. simpl.
  now rewrite app_nil_r.
Qed.

Lemma in_levels_below_disks (g : bool) a b c (m : nat) k :
  In k (levels_below g a b c m) -> 0 <= disks k < Z.of_nat m.
Proof.
  unfold levels_below. rewrite in_flat_map. intros (j & Hj & Hk).
  apply in_seq in Hj. apply in_level in Hk.
  destruct Hk as (x & y & z & -> & _). simpl. lia.
Qed.

(** Once the three arrangements of a level are all in the call graph of a
    key, so are all the keys of the levels below. *)
Lemma levels_reachable (top : Key P) (g : bool) a b c (m : nat) :
  (forall x y z,
      In (x, y, z) (orbit (xorb g (Nat.odd m)) a b c) ->
      reachable top (Z.of_nat m, x, y, z)) ->
  forall k, In k (levels_below g a b c (S m)) -> reachable top k.
Proof.
  induction m as [| m IH]; intros Htop k Hin;
    rewrite levels_below_succ in Hin; apply in_app_or in Hin.
  - destruct Hin as [[] | Hin]. apply in_level in Hin.
    destruct Hin as (x & y & z & -> & Hq). now apply Htop.
  - destruct Hin as [Hin | Hin].
    + apply IH; [| exact Hin]. intros x y z Hq.
      assert (Hpar : xorb g (Nat.odd m) = negb (xorb g (Nat.odd (S m)))).
      { rewrite Nat.odd_succ, <- Nat.negb_odd.
        destruct g, (Nat.odd m); reflexivity. }
      rewrite Hpar in Hq. apply orbit_onto in Hq.
      destruct Hq as (x0 & y0 & z0 & Hq0 & Hq).
      apply reachable_trans with (k' := (Z.of_nat (S m), x0, y0, z0));
        [now apply Htop |].
      destruct (reachable_children m x0 y0 z0) as [Hfirst Hsecond].
      destruct Hq as [[= -> -> ->] | [= -> -> ->]]; assumption.
    + apply in_level in Hin. destruct Hin as (x & y & z & -> & Hq).
      now apply Htop.
Qed.

Lemma NoDup_level (g : bool) a b c (j : nat) :
  a <> b -> a <> c -> b <> c -> NoDup (level g a b c j).
Proof.
  intros Hab Hac Hbc. unfold level.
  destruct (xorb g (Nat.odd j)); simpl;
    repeat constructor; simpl; intros Hin;
    repeat (destruct Hin as [Hin | Hin]; [injection Hin; congruence |]);
    exact Hin.
Qed.

Lemma NoDup_levels_below (g : bool) a b c (m : nat) :
  a <> b -> a <> c -> b <> c -> NoDup (levels_below g a b c m).
Proof.
  intros Hab Hac Hbc. induction m as [| m IH]; [constructor |].
  rewrite levels_below_succ. apply NoDup_app; [exact IH | now apply NoDup_level |].
  intros k Hk Hlev. apply in_levels_below_disks in Hk.
  apply in_level in Hlev. destruct Hlev as (x & y & z & -> & _).
  simpl in Hk. lia.
Qed.

(** X9: with three different rods and an unbounded cache, a first decorated
    call with [n >= 1] disks enters the body exactly [3 * n] times, and the
    cache records as many misses. *)
Theorem memo_calls_exact n a b c :
  a <> b -> a <> c -> b <> c -> 1 <= n ->
  Z.of_nat (LRU.calls (snd (hanoi_count_memo n a b c (fresh None)))) = 3 * n
  /\ Z.of_nat (LRU.misses (LRU.cache (snd (hanoi_count_memo n a b c (fresh None)))))
     = 3 * n.
Proof.
  intros Hab Hac Hbc Hn.
  pose proof (memo_calls_bound n a b c Hn) as Hupper.
  destruct (memo_unbounded n a b c (fresh None) eq_refl (NoDup_nil _))
    as (Hnd & _ & Hcnt).
  simpl in Hcnt. rewrite Nat.add_0_r in Hcnt.
  destruct (memo_invariants n a b c (fresh None)) as (_ & _ & Hmiss).
  simpl in Hmiss. rewrite Nat.add_0_r in Hmiss.
  destruct (memo_closed n a b c (fresh None) eq_refl) as [Hclosed Htop].
  { intros k k' []. }
  set (w' := snd (hanoi_count_memo n a b c (fresh None))) in *.
  set (j := Z.to_nat (n - 1)).
  set (g := Nat.odd j).
  set (U := [(n, a, b, c); (n - 1, a, c, b); (n - 1, b, a, c)]
              ++ levels_below g a b c j).
  assert (Hj : Z.of_nat j = n - 1) by (unfold j; lia).
  assert (Hfirst : reachable (n, a, b, c) (n - 1, a, c, b)).
  { apply reach_first; [lia | apply reach_here]. }
  assert (Hsecond : reachable (n, a, b, c) (n - 1, b, a, c)).
  { apply reach_second; [lia | apply reach_here]. }
  assert (Hreach : forall k, In k U -> reachable (n, a, b, c) k).
  { intros k Hk. unfold U in Hk. simpl in Hk.
    destruct Hk as [<- | [<- | [<- | Hk]]];
      [apply reach_here | exact Hfirst | exact Hsecond |].
    destruct j as [| m] eqn:Ej; [destruct Hk |].
    apply (levels_reachable (n, a, b, c) g a b c m); [| exact Hk].
    assert (Hpar : xorb g (Nat.odd m) = true).
    { unfold g. rewrite Nat.odd_succ, <- Nat.negb_odd.
      destruct (Nat.odd m); reflexivity. }
    rewrite Hpar. simpl.
    assert (Hm : n - 1 = Z.of_nat (S m)) by lia.
    rewrite Hm in Hfirst, Hsecond.
    destruct (reachable_children m a c b) as [Hff Hfs].
    destruct (reachable_children m b a c) as [Hsf _].
    intros x y z [[= <- <- <-] | [[= <- <- <-] | [[= <- <- <-] | []]]].
    - exact (reachable_trans _ _ _ Hfirst Hff).
    - exact (reachable_trans _ _ _ Hfirst Hfs).
    - exact (reachable_trans _ _ _ Hsecond Hsf). }
  assert (HndU : NoDup U).
  { unfold U. pose proof (NoDup_levels_below g a b c j Hab Hac Hbc) as Hbelow.
    assert (Hlow : forall k, In k (levels_below g a b c j) -> disks k < n - 1).
    { intros k Hk. apply in_levels_below_disks in Hk. lia. }
    simpl. constructor; [| constructor; [| constructor; [| exact Hbelow]]].
    - simpl. intros [Heq | [Heq | Hk]];
        [injection Heq; lia | injection Heq; lia |].
      apply Hlow in Hk. simpl in Hk. lia.
    - simpl. intros [Heq | Hk]; [injection Heq; congruence |].
      apply Hlow in Hk. simpl in Hk. lia.
    - intros Hk. apply Hlow in Hk. simpl in Hk. lia. }
  assert (Hincl : incl U (LRU.keys (LRU.cache w'))).
  { intros k Hk. apply (Hclosed (n, a, b, c)); [exact Htop | now apply Hreach]. }
  pose proof (NoDup_incl_length HndU Hincl) as Hlower.
  assert (HlenU : List.length U = (3 + 3 * j)%nat).
  { unfold U. rewrite length_app. apply (f_equal (Nat.add 3)).
    exact (levels_below_length g a b c j). }
  rewrite HlenU in Hlower.
  assert (Hlower' : (3 + 3 * j <= LRU.calls w')%nat).
  { rewrite Hcnt. exact Hlower. }
  assert (Hcalls : Z.of_nat (LRU.calls w') = 3 * n) by lia.
  split; [exact Hcalls | lia].
Qed.

(** *** A bounded cache with room for every key

    As long as the bound is not reached nothing is evicted, and a bounded
    cache goes through the same states as an unbounded one. *)

Lemma memo_unbounded_size n a b c w :
  LRU.capacity (LRU.cache w) = None ->
  NoDup (LRU.keys (LRU.cache w)) ->
  (LRU.size (LRU.cache w)
   <= LRU.size (LRU.cache (snd (hanoi_count_memo n a b c w))))%nat.
Proof.
  intros Hcap Hnd.
  destruct (memo_unbounded n a b c w Hcap Hnd) as (_ & Hincl & _).
  pose proof (NoDup_incl_length Hnd Hincl) as Hle.
  unfold LRU.size, LRU.keys in *. now rewrite !length_map in Hle.
Qed.

Lemma memo_same_as_unbounded n :
  forall a b c w wu (cap : nat),
    LRU.capacity (LRU.cache w) = Some cap ->
    LRU.capacity (LRU.cache wu) = None ->
    NoDup (LRU.keys (LRU.cache wu)) ->
    LRU.entries (LRU.cache w) = LRU.entries (LRU.cache wu) ->
    LRU.calls w = LRU.calls wu ->
    (LRU.size (LRU.cache (snd (hanoi_count_memo n a b c wu))) <= cap)%nat ->
    fst (hanoi_count_memo n a b c w) = fst (hanoi_count_memo n a b c wu)
    /\ LRU.entries (LRU.cache (snd (hanoi_count_memo n a b c w)))
       = LRU.entries (LRU.cache (snd (hanoi_count_memo n a b c wu)))
    /\ LRU.calls (snd (hanoi_count_memo n a b c w))
       = LRU.calls (snd (hanoi_count_memo n a b c wu)).
Proof.
  assert (Hstore : forall k (v : Z) (cch cchu : LRU.Cache (Key P) Z) (cap : nat),
             LRU.capacity cch = Some cap -> LRU.capacity cchu = None ->
             LRU.entries cch = LRU.entries cchu ->
             (LRU.size (LRU.on_miss Key_eq_dec k v cchu) <= cap)%nat ->
             LRU.entries (LRU.on_miss Key_eq_dec k v cch)
             = LRU.entries (LRU.on_miss Key_eq_dec k v cchu)).
  { intros k v cch cchu cap Hcap Hcapu He Hsz.
    unfold LRU.size, LRU.on_miss, LRU.over_capacity in *.
    cbn [LRU.entries] in *. rewrite Hcap, He. rewrite Hcapu in *.
    destruct (Nat.ltb_spec cap
                (List.length (LRU.touch Key_eq_dec k v (LRU.entries cchu))));
      [lia | reflexivity]. }
  pattern n. apply disks_ind; clear n.
  - intros n Hle a b c w wu cap Hcap Hcapu Hnd He Hcalls.
    rewrite (memo_unfold n a b c w), (memo_unfold n a b c wu), He.
    destruct (lookup _ _) as [v |] eqn:Hl.
    + intros _. simpl. now rewrite He, Hcalls.
    + destruct (Z_gt_dec n 0); [lia |]. cbn [fst snd LRU.cache LRU.calls].
      intros Hsz. rewrite (Hstore _ _ _ _ cap Hcap Hcapu He Hsz), Hcalls. auto.
  - intros n Hgt IH a b c w wu cap Hcap Hcapu Hnd He Hcalls Hsz.
    pose proof (memo_frame (n - 1) a c b (snd (LRU.tick w))) as (Hc1 & _).
    pose proof (memo_frame (n - 1) a c b (snd (LRU.tick wu))) as (Hcu1 & _).
    pose proof (memo_unbounded (n - 1) a c b (snd (LRU.tick wu)) Hcapu Hnd)
      as (Hnd1 & _).
    pose proof (IH a c b (snd (LRU.tick w)) (snd (LRU.tick wu)) cap) as IH1.
    revert Hsz. rewrite (memo_unfold n a b c w), (memo_unfold n a b c wu), He.
    destruct (lookup _ _) as [v |] eqn:Hl.
    { intros _. simpl. now rewrite He, Hcalls. }
    destruct (Z_gt_dec n 0); [| lia].
    destruct (hanoi_count_memo (n - 1) a c b (snd (LRU.tick w))) as [s1 w1].
    destruct (hanoi_count_memo (n - 1) a c b (snd (LRU.tick wu))) as [su1 wu1].
    pose proof (memo_frame (n - 1) b a c w1) as (Hc2 & _).
    pose proof (memo_frame (n - 1) b a c wu1) as (Hcu2 & _).
    assert (Hcapu1 : LRU.capacity (LRU.cache wu1) = None).
    { simpl in Hcu1. congruence. }
    pose proof (memo_unbounded (n - 1) b a c wu1 Hcapu1 Hnd1) as (Hnd2 & _).
    pose proof (memo_unbounded_size (n - 1) b a c wu1 Hcapu1 Hnd1) as Hgrow2.
    pose proof (IH b a c w1 wu1 cap) as IH2.
    destruct (hanoi_count_memo (n - 1) b a c w1) as [s2 w2].
    destruct (hanoi_count_memo (n - 1) b a c wu1) as [su2 wu2].
    cbn [fst snd LRU.cache LRU.calls] in *. intros Hsz.
    assert (Hsz2 : (LRU.size (LRU.cache wu2) <= cap)%nat).
    { assert (Hcapu2 : LRU.capacity (LRU.cache wu2) = None) by congruence.
      assert (Hin : incl (LRU.keys (LRU.cache wu2))
                         (LRU.keys (LRU.on_miss Key_eq_dec (make_key n a b c)
                                      (0 + su1 + 1 + su2) (LRU.cache wu2)))).
      { intros k Hk. apply in_keys_on_miss_unbounded; [exact Hcapu2 | now right]. }
      pose proof (NoDup_incl_length Hnd2 Hin) as Hle.
      unfold LRU.size, LRU.keys in *. rewrite !length_map in Hle. lia. }
    assert (Hcap1 : LRU.capacity (LRU.cache w1) = Some cap).
    { rewrite Hc1. exact Hcap. }
    destruct (IH1 Hcap Hcapu Hnd He) as (Hs1 & He1 & Hcalls1);
      [simpl; now rewrite Hcalls | lia |].
    destruct (IH2 Hcap1 Hcapu1 Hnd1 He1 Hcalls1 Hsz2) as (Hs2 & He2 & Hcalls2).
    subst s1 s2. split; [reflexivity |]. split; [| exact Hcalls2].
    apply (Hstore _ _ _ _ cap); [congruence | congruence | exact He2 | exact Hsz].
Qed.

(** X10: a cache with room for three entries per disk behaves on a first
    decorated call as the unbounded one: the same result, the same entries
    in the same order (nothing is evicted), and the same number of entries
    into the body, at most [3 * n]. With the default bound of 128 entries
    this covers up to 42 disks. *)
Theorem memo_enough_room n a b c (cap : nat) :
  1 <= n -> 3 * n <= Z.of_nat cap ->
  fst (hanoi_count_memo n a b c (fresh (Some cap))) = hanoi_count n a b c
  /\ LRU.entries (LRU.cache (snd (hanoi_count_memo n a b c (fresh (Some cap)))))
     = LRU.entries (LRU.cache (snd (hanoi_count_memo n a b c (fresh None))))
  /\ LRU.calls (snd (hanoi_count_memo n a b c (fresh (Some cap))))
     = LRU.calls (snd (hanoi_count_memo n a b c (fresh None)))
  /\ Z.of_nat (LRU.calls (snd (hanoi_count_memo n a b c (fresh (Some cap)))))
     <= 3 * n.
Proof.
  intros Hn Hcap.
  pose proof (memo_calls_bound n a b c Hn) as Hupper.
  destruct (memo_unbounded n a b c (fresh None) eq_refl (NoDup_nil _))
    as (_ & _ & Hcnt).
  simpl in Hcnt. rewrite Nat.add_0_r in Hcnt.
  destruct (memo_same_as_unbounded n a b c (fresh (Some cap)) (fresh None) cap)
    as (Hres & Hentries & Hcalls); try reflexivity.
  - constructor.
  - unfold LRU.size, LRU.keys in *. rewrite length_map in Hcnt. lia.
  - destruct (memo_sound n a b c (fresh None) (consistent_fresh None)) as [Hv _].
    split; [congruence |]. split; [exact Hentries |].
    split; [exact Hcalls | lia].
Qed.

End ExactCount.

(** * Calls that differ in one argument *)

Section KeyCompleteness.

Context {P : Type} `{PoleLike P}.

Local Abbreviation lookup := (LRU.lookup (K := Key P) (V := Z) Key_eq_dec).
Local Abbreviation touch := (LRU.touch (K := Key P) (V := Z) Key_eq_dec).

Implicit Types (n : Z) (a b c : P) (w : LRU.World (Key P) Z) (k : Key P).

Lemma lookup_skip k k' (v : Z) (l : list (Key P * Z)) :
  k <> k' -> lookup k ((k', v) :: l) = lookup k l.
Proof.
  intros Hne. cbn [LRU.lookup].
  destruct (Key_eq_dec k k'); [contradiction | reflexivity].
Qed.

(** The call graph of a key lies within the key and three keys for each
    smaller number of disks. *)
Lemma reachable_within n a b c k :
  reachable (n, a, b, c) k ->
  In k (make_key n a b c
          :: levels_below (negb (Nat.odd (Z.to_nat n))) a b c (Z.to_nat n)).
Proof.
  intros Hr. destruct (Z_le_gt_dec 0 n) as [Hge | Hlt].
  - set (j := Z.to_nat n) in *.
    assert (Hj : n = Z.of_nat j) by (unfold j; lia).
    rewrite Hj in Hr.
    destruct (reachable_levels (negb (Nat.odd j)) a b c j a b c k) as [-> | Hb].
    + replace (xorb (negb (Nat.odd j)) (Nat.odd j)) with true
        by (destruct (Nat.odd j); reflexivity).
      simpl. now left.
    + exact Hr.
    + left. unfold make_key. now rewrite Hj.
    + right. exact Hb.
  - left. inversion Hr; [unfold make_key; congruence | lia | lia].
Qed.

(** An unbounded cache grows by at most one entry, and three for each disk,
    in one decorated call. *)
Lemma memo_unbounded_growth n a b c w :
  LRU.capacity (LRU.cache w) = None ->
  NoDup (LRU.keys (LRU.cache w)) ->
  (LRU.size (LRU.cache (snd (hanoi_count_memo n a b c w)))
   <= LRU.size (LRU.cache w) + (1 + 3 * Z.to_nat n))%nat.
Proof.
  intros Hcap Hnd.
  destruct (memo_unbounded n a b c w Hcap Hnd) as (Hnd' & _ & _).
  assert (Hincl : incl (LRU.keys (LRU.cache (snd (hanoi_count_memo n a b c w))))
                       (LRU.keys (LRU.cache w)
                          ++ make_key n a b c
                               :: levels_below (negb (Nat.odd (Z.to_nat n)))
                                    a b c (Z.to_nat n))).
  { intros k Hin. apply in_or_app.
    apply memo_keys_reachable in Hin. destruct Hin as [Hin | Hr]; [now left |].
    right. now apply reachable_within. }
  pose proof (NoDup_incl_length Hnd' Hincl) as Hle.
  rewrite length_app in Hle. cbn [List.length] in Hle.
  rewrite levels_below_length in Hle.
  unfold LRU.size, LRU.keys in *. rewrite !length_map in Hle. lia.
Qed.

(** Two decorated calls on an empty cache with room for the keys of both
    leave the entries an unbounded cache would have. *)
Lemma memo_twice_enough_room n a b c (n' : Z) (a' b' c' : P) (cap : nat) :
  (2 + 3 * Z.to_nat n + 3 * Z.to_nat n' <= cap)%nat ->
  LRU.entries
    (LRU.cache (snd (hanoi_count_memo n' a' b' c'
                       (snd (hanoi_count_memo n a b c (fresh (Some cap)))))))
  = LRU.entries
      (LRU.cache (snd (hanoi_count_memo n' a' b' c'
                         (snd (hanoi_count_memo n a b c (fresh None)))))).
Proof.
  intros Hroom.
  pose proof (memo_unbounded_growth n a b c (fresh None) eq_refl (NoDup_nil _))
    as Hsz1.
  change (LRU.size (LRU.cache (fresh None))) with 0%nat in Hsz1.
  destruct (memo_unbounded n a b c (fresh None) eq_refl (NoDup_nil _))
    as (Hnd1 & _ & _).
  destruct (memo_frame n a b c (fresh None)) as (Hcapu1 & _).
  destruct (memo_frame n a b c (fresh (Some cap))) as (Hcap1 & _).
  destruct (memo_same_as_unbounded n a b c (fresh (Some cap)) (fresh None) cap)
    as (_ & He1 & Hcalls1); try reflexivity; [constructor | lia |].
  pose proof (memo_unbounded_growth n' a' b' c'
                (snd (hanoi_count_memo n a b c (fresh None))) Hcapu1 Hnd1)
    as Hsz2.
  destruct (memo_same_as_unbounded n' a' b' c'
              (snd (hanoi_count_memo n a b c (fresh (Some cap))))
              (snd (hanoi_count_memo n a b c (fresh None))) cap)
    as (_ & He2 & _); auto.
  lia.
Qed.

(** C7 (as amended): the key is made of all four arguments. Two decorated
    calls that differ in an argument have different keys, and storing under
    one never changes what the other finds. Made one after the other from
    any consistent cache, the second call returns its own result: a hit is
    on an entry stored under its own key, a miss enters the body. After
    both, no key is stored twice; the second call's entry is the most
    recently used one, and the first call's entry, as long as it is still
    cached, is another entry holding its own result. It is still cached
    when the cache is unbounded, and when the calls start from an empty
    cache with room for the keys of both; a bounded cache may have evicted
    it. *)
Theorem key_completeness n a b c (n' : Z) (a' b' c' : P) w :
  n <> n' \/ a <> a' \/ b <> b' \/ c <> c' ->
  consistent w ->
  NoDup (LRU.keys (LRU.cache w)) ->
  make_key n a b c <> make_key n' a' b' c'
  /\ (forall v (l : list (Key P * Z)),
        lookup (make_key n' a' b' c') (touch (make_key n a b c) v l)
        = lookup (make_key n' a' b' c') l)
  /\ fst (hanoi_count_memo n' a' b' c' (snd (hanoi_count_memo n a b c w)))
     = hanoi_count n' a' b' c'
  /\ (forall v,
        lookup (make_key n' a' b' c')
               (LRU.entries (LRU.cache (snd (hanoi_count_memo n a b c w))))
        = Some v ->
        In (make_key n' a' b' c', v)
           (LRU.entries (LRU.cache (snd (hanoi_count_memo n a b c w))))
        /\ v = hanoi_count n' a' b' c')
  /\ (lookup (make_key n' a' b' c')
             (LRU.entries (LRU.cache (snd (hanoi_count_memo n a b c w))))
      = None ->
      (LRU.calls (snd (hanoi_count_memo n a b c w))
       < LRU.calls (snd (hanoi_count_memo n' a' b' c'
                           (snd (hanoi_count_memo n a b c w)))))%nat)
  /\ NoDup (LRU.keys
              (LRU.cache (snd (hanoi_count_memo n' a' b' c'
                                 (snd (hanoi_count_memo n a b c w))))))
  /\ (LRU.capacity (LRU.cache w) <> Some 0%nat ->
      exists rest,
        LRU.entries
          (LRU.cache (snd (hanoi_count_memo n' a' b' c'
                             (snd (hanoi_count_memo n a b c w)))))
        = (make_key n' a' b' c', hanoi_count n' a' b' c') :: rest
        /\ (forall v,
              lookup (make_key n a b c)
                     (LRU.entries
                        (LRU.cache (snd (hanoi_count_memo n' a' b' c'
                                           (snd (hanoi_count_memo n a b c w))))))
              = Some v ->
              In (make_key n a b c, v) rest /\ v = hanoi_count n a b c))
  /\ (LRU.capacity (LRU.cache w) = None ->
      lookup (make_key n a b c)
             (LRU.entries
                (LRU.cache (snd (hanoi_count_memo n' a' b' c'
                                   (snd (hanoi_count_memo n a b c w))))))
      = Some (hanoi_count n a b c))
  /\ (forall cap : option nat,
        n <= n' ->
        lookup (make_key n' a' b' c')
               (LRU.entries (LRU.cache (snd (hanoi_count_memo n a b c (fresh cap)))))
        = None)
  /\ (forall cap : nat,
        (2 + 3 * Z.to_nat n + 3 * Z.to_nat n' <= cap)%nat ->
        lookup (make_key n a b c)
               (LRU.entries
                  (LRU.cache (snd (hanoi_count_memo n' a' b' c'
                                     (snd (hanoi_count_memo n a b c
                                             (fresh (Some cap))))))))
        = Some (hanoi_count n a b c)
        /\ lookup (make_key n' a' b' c')
                  (LRU.entries
                     (LRU.cache (snd (hanoi_count_memo n' a' b' c'
                                        (snd (hanoi_count_memo n a b c
                                                (fresh (Some cap))))))))
           = Some (hanoi_count n' a' b' c')).
Proof.
  intros Hdiff Hc Hnd.
  pose proof (make_key_distinct _ _ _ _ _ _ _ _ Hdiff) as Hne.
  destruct (memo_sound n a b c w Hc) as [_ Hc1].
  destruct (memo_sound n' a' b' c' _ Hc1) as [Hv2 Hc2].
  destruct (memo_frame n a b c w) as (Hcap1 & _).
  destruct (memo_frame n' a' b' c' (snd (hanoi_count_memo n a b c w)))
    as (_ & _ & Hhead2).
  destruct (memo_invariants n a b c w) as (_ & Hnd1 & _).
  destruct (memo_invariants n' a' b' c' (snd (hanoi_count_memo n a b c w)))
    as (_ & Hnd2 & _).
  split; [exact Hne |].
  split; [intros v l; apply lookup_touch_ne; congruence |].
  split; [exact Hv2 |].
  split.
  { intros v Hl. split; [now apply lookup_some_in in Hl |].
    exact (consistent_lookup _ _ _ Hc1 Hl). }
  split; [apply memo_miss |].
  split; [auto |].
  split.
  { intros Hcap. destruct (Hhead2 ltac:(congruence)) as [rest Hrest].
    rewrite Hv2 in Hrest. exists rest. split; [exact Hrest |].
    intros v Hl. split; [| exact (consistent_lookup _ _ _ Hc2 Hl)].
    rewrite Hrest, lookup_skip in Hl by exact Hne.
    now apply lookup_some_in in Hl. }
  split.
  { intros Hcap. now apply memo_both_kept_unbounded. }
  split.
  { intros cap Hle. now apply memo_fresh_absent. }
  intros cap Hroom.
  rewrite (memo_twice_enough_room n a b c n' a' b' c' cap Hroom).
  apply memo_both_kept_unbounded; [reflexivity | apply consistent_fresh].
Qed.

End KeyCompleteness.

(** * The notebook's calls *)

Local Open Scope string_scope.

(** The notebook's first output cell. *)
Example hanoi_3_ABC :
  hanoi 3 "A" "B" "C"
  = ["Move disk 1 from rod A to rod C";
     "Move disk 2 from rod A to rod B";
     "Move disk 1 from rod C to rod B";
     "Move disk 3 from rod A to rod C";
     "Move disk 1 from rod B to rod A";
     "Move disk 2 from rod B to rod C";
     "Move disk 1 from rod A to rod C"].
Proof. vm_compute. reflexivity. Qed.

(** The decorated function as the notebook has it: string poles, and the
    decorator's default bound. With 24 disks the body is entered 72 times,
    with the notebook's 350 disks 1050 times. *)
Example memo_24_default :
  hanoi_count_memo 24 "A" "B" "C" (fresh (Some default_maxsize))
  = (16777215,
     snd (hanoi_count_memo 24 "A" "B" "C" (fresh (Some default_maxsize))))
  /\ LRU.calls (snd (hanoi_count_memo 24 "A" "B" "C" (fresh (Some default_maxsize))))
     = 72%nat
  /\ LRU.calls (snd (hanoi_count_memo 24 "A" "B" "C" (fresh None))) = 72%nat
  /\ LRU.calls (snd (hanoi_count_memo 350 "A" "B" "C" (fresh (Some default_maxsize))))
     = 1050%nat.
Proof. vm_compute. repeat split; reflexivity. Qed.

(** With the default bound of 128 entries a repeated call can find its entry
    evicted: after [hanoi_count(0, "A", "B", "C")], the call
    [hanoi_count(44, "A", "B", "C")] stores 131 new entries, and the call
    [hanoi_count(0, "A", "B", "C")] made again enters the body again. *)
Lemma memo_repeat_reinvokes :
  LRU.lookup Key_eq_dec (make_key 0 "A" "B" "C")
    (LRU.entries
       (LRU.cache
          (snd (hanoi_count_memo 44 "A" "B" "C"
                  (snd (hanoi_count_memo 0 "A" "B" "C"
                          (fresh (Some default_maxsize))))))))
  = None
  /\ LRU.calls
       (snd (hanoi_count_memo 0 "A" "B" "C"
               (snd (hanoi_count_memo 44 "A" "B" "C"
                       (snd (hanoi_count_memo 0 "A" "B" "C"
                               (fresh (Some default_maxsize))))))))
     = S (LRU.calls
            (snd (hanoi_count_memo 44 "A" "B" "C"
                    (snd (hanoi_count_memo 0 "A" "B" "C"
                            (fresh (Some default_maxsize))))))).
Proof. vm_compute. split; reflexivity. Qed.

Lemma memo_agrees_and_repeats_witness :
  fst (hanoi_count_memo 3 "A" "B" "C" (fresh (Some default_maxsize)))
  = hanoi_count 3 "A" "B" "C"
  /\ LRU.calls
       (call_all (repeat (make_key 3 "A" "B" "C") 2)
                 (snd (hanoi_count_memo 3 "A" "B" "C" (fresh (Some default_maxsize)))))
     = LRU.calls (snd (hanoi_count_memo 3 "A" "B" "C" (fresh (Some default_maxsize)))).
Proof.
  destruct (memo_agrees_and_repeats 3 "A" "B" "C" (fresh (Some default_maxsize))
              (Forall_nil _)) as (Hvalue & _ & Hrepeat & _).
  split; [exact Hvalue |].
  apply (Hrepeat ltac:(discriminate) 2%nat).
Defined.

Lemma memo_calls_linear_witness :
  Z.of_nat (LRU.calls (snd (hanoi_count_memo 24 "A" "B" "C" (fresh None))))
  <= 3 * 24
  /\ 1000 * Z.of_nat (LRU.calls (snd (hanoi_count_memo 24 "A" "B" "C" (fresh None))))
     < 2 ^ 24 - 1.
Proof.
  destruct (memo_calls_linear 24 "A" "B" "C")
    as (_ & _ & _ & Hlinear & _ & Hsmall).
  split; [apply Hlinear; lia | exact (Hsmall eq_refl)].
Defined.

(** The notebook's last output cell: 350 disks through the decorated
    function. *)
Example memo_350_default :
  fst (hanoi_count_memo 350 "A" "B" "C" (fresh (Some default_maxsize)))
  = 2293498615990071511610820895302086940796564989168281123737588839386922876088484808070018553110125686554623.
Proof. vm_compute. reflexivity. Qed.

Lemma hanoi_solves_witness :
  hanoi 3 "A" "B" "C" = map render (hanoi_moves 3 "A" "B" "C")
  /\ exists r,
       play (hanoi_moves 3 "A" "B" "C") (all_on 3 "A") = Some r
       /\ r "C" = tower 3
       /\ (forall p, p <> "C" -> r p = []).
Proof. apply hanoi_solves; discriminate. Defined.

Lemma hanoi_length_witness :
  Z.of_nat (List.length (hanoi 4 "A" "B" "C")) = 2 ^ 4 - 1.
Proof. apply hanoi_length. lia. Defined.

Lemma hanoi_moves_per_disk_witness :
  hanoi 3 "A" "B" "C" = map render (hanoi_moves 3 "A" "B" "C")
  /\ Z.of_nat (moves_of 2 (hanoi_moves 3 "A" "B" "C")) = 2 ^ (3 - 2).
Proof. apply hanoi_moves_per_disk. lia. Defined.

Lemma memo_within_capacity_witness :
  (LRU.size
     (LRU.cache
        (call_all [make_key 44 "A" "B" "C"; make_key 3 "B" "A" "C"]
                  (fresh (Some default_maxsize))))
   <= default_maxsize)%nat.
Proof.
  apply memo_within_capacity; [reflexivity | apply Nat.le_0_l].
Defined.

Lemma memo_keys_distinct_witness :
  NoDup
    (LRU.keys
       (LRU.cache
          (call_all [make_key 44 "A" "B" "C"; make_key 3 "B" "A" "C"]
                    (fresh (Some default_maxsize))))).
Proof. apply memo_keys_distinct. apply NoDup_nil. Defined.

Lemma memo_calls_exact_witness :
  Z.of_nat (LRU.calls (snd (hanoi_count_memo 24 "A" "B" "C" (fresh None))))
  = 3 * 24
  /\ Z.of_nat (LRU.misses
                 (LRU.cache (snd (hanoi_count_memo 24 "A" "B" "C" (fresh None)))))
     = 3 * 24.
Proof. apply memo_calls_exact; [discriminate | discriminate | discriminate | lia]. Defined.

Lemma memo_enough_room_witness :
  fst (hanoi_count_memo 24 "A" "B" "C" (fresh (Some default_maxsize)))
  = hanoi_count 24 "A" "B" "C"
  /\ LRU.entries
       (LRU.cache (snd (hanoi_count_memo 24 "A" "B" "C"
                          (fresh (Some default_maxsize)))))
     = LRU.entries
         (LRU.cache (snd (hanoi_count_memo 24 "A" "B" "C" (fresh None))))
  /\ LRU.calls (snd (hanoi_count_memo 24 "A" "B" "C"
                       (fresh (Some default_maxsize))))
     = LRU.calls (snd (hanoi_count_memo 24 "A" "B" "C" (fresh None)))
  /\ Z.of_nat (LRU.calls (snd (hanoi_count_memo 24 "A" "B" "C"
                                 (fresh (Some default_maxsize)))))
     <= 3 * 24.
Proof.
  apply memo_enough_room; [lia | unfold default_maxsize; lia].
Defined.

(** Under the default bound of 128 entries two calls that differ only in
    the end rod need not both keep an entry: after
    [hanoi_count(43, "A", "B", "C")] and [hanoi_count(43, "A", "B", "D")]
    the cache is full and the entry of the first call is gone. *)
Lemma key_entry_evicted :
  LRU.lookup Key_eq_dec (make_key 43 "A" "B" "C")
    (LRU.entries
       (LRU.cache
          (snd (hanoi_count_memo 43 "A" "B" "D"
                  (snd (hanoi_count_memo 43 "A" "B" "C"
                          (fresh (Some default_maxsize))))))))
  = None
  /\ LRU.size
       (LRU.cache
          (snd (hanoi_count_memo 43 "A" "B" "D"
                  (snd (hanoi_count_memo 43 "A" "B" "C"
                          (fresh (Some default_maxsize)))))))
     = default_maxsize.
Proof. vm_compute. split; reflexivity. Qed.

Lemma key_completeness_witness :
  make_key 3 "A" "B" "C" <> make_key 3 "A" "B" "D"
  /\ LRU.lookup Key_eq_dec (make_key 3 "A" "B" "C")
       (LRU.entries
          (LRU.cache
             (snd (hanoi_count_memo 3 "A" "B" "D"
                     (snd (hanoi_count_memo 3 "A" "B" "C"
                             (fresh (Some default_maxsize))))))))
     = Some (hanoi_count 3 "A" "B" "C")
  /\ LRU.lookup Key_eq_dec (make_key 3 "A" "B" "D")
       (LRU.entries
          (LRU.cache
             (snd (hanoi_count_memo 3 "A" "B" "D"
                     (snd (hanoi_count_memo 3 "A" "B" "C"
                             (fresh (Some default_maxsize))))))))
     = Some (hanoi_count 3 "A" "B" "D").
Proof.
  destruct (key_completeness 3 "A" "B" "C" 3 "A" "B" "D"
              (fresh (Some default_maxsize))
              ltac:(right; right; right; discriminate)
              (Forall_nil _) (NoDup_nil _))
    as (Hkeys & _ & _ & _ & _ & _ & _ & _ & _ & Hroom).
  split; [exact Hkeys |].
  apply (Hroom default_maxsize). unfold default_maxsize. simpl. lia.
Defined.
